(** * torchquad: Boole's rule and the adaptive Newton-Cotes driver

    A shallow embedding of [integration/boole.py] and
    [integration/adaptive_newton_cotes.py].

    Numbers.  The Python code computes with torch floating-point tensors.
    Here every tensor entry is an exact rational ([Qc], canonical
    rationals with Leibniz equality), so the theorems speak about the
    arithmetic the code performs, not about rounding.  Python integers are
    [Z]; lengths and loop counters are [nat]. *)

From Stdlib Require Import List ZArith QArith Qcanon Lia Bool Arith PeanoNat.
From Stdlib Require Import Permutation ZifyNat.
Import ListNotations.

(** [lia] reasons about division and remainder by a numeral. *)
Ltac Zify.zify_post_hook ::= Z.div_mod_to_equations.

Local Open Scope Qc_scope.

(** ** Python sequences *)

Module Py.

(** Normalisation of one slice bound against a length, as CPython's
    [PySlice_AdjustIndices] does for a positive step: a negative bound
    counts from the end, then the bound is clamped to [0, len]. *)
Definition adjust_index (len : nat) (i : Z) : nat :=
  let l := Z.of_nat len in
  let i' := (if i <? 0 then i + l else i)%Z in
  Z.to_nat (Z.max 0 (Z.min l i')).

(** [xs[start:stop]]; [None] is an omitted bound. *)
Definition slice {A} (start stop : option Z) (xs : list A) : list A :=
  let len := length xs in
  let lo := match start with Some i => adjust_index len i | None => 0%nat end in
  let hi := match stop with Some i => adjust_index len i | None => len end in
  firstn (hi - lo) (skipn lo xs).

(** [xs[::step]] for a positive step: the elements at 0, step, 2*step, ... *)
Fixpoint stride_aux {A} (fuel step : nat) (xs : list A) : list A :=
  match fuel with
  | O => []
  | S fuel' =>
      match xs with
      | [] => []
      | x :: _ => x :: stride_aux fuel' step (skipn step xs)
      end
  end.

Definition stride {A} (step : nat) (xs : list A) : list A :=
  stride_aux (length xs) step xs.

(** [range(n)] *)
Definition range (n : nat) : list nat := seq 0 n.

End Py.

(** ** Tensors

    A torch tensor with [d] axes is a [d]-fold nested list; axis 0 is the
    outermost list, the last axis the innermost one.  A tensor with no
    axis is a scalar. *)

Fixpoint tensor (d : nat) : Type :=
  match d with
  | O => Qc
  | S d' => list (tensor d')
  end.

Module Torch.

(** Elementwise [c * t]. *)
Fixpoint scale (d : nat) (c : Qc) : tensor d -> tensor d :=
  match d with
  | O => fun x => c * x
  | S d' => fun t => map (scale d' c) t
  end.

(** Elementwise [t + u] of two tensors of one shape. *)
Fixpoint zip_with {A B C} (f : A -> B -> C) (xs : list A) (ys : list B) : list C :=
  match xs, ys with
  | x :: xs', y :: ys' => f x y :: zip_with f xs' ys'
  | _, _ => []
  end.

Fixpoint add (d : nat) : tensor d -> tensor d -> tensor d :=
  match d with
  | O => fun x y => x + y
  | S d' => fun t u => zip_with (add d') t u
  end.

(** [t[..., g]]: an index expression [g] applied on the last axis. *)
Fixpoint on_last (d : nat) (g : list Qc -> list Qc) : tensor (S d) -> tensor (S d) :=
  match d with
  | O => fun row => g row
  | S d' => fun t => map (on_last d' g) t
  end.

(** A tensor of zeros shaped like [t]. *)
Fixpoint zeros_like (d : nat) : tensor d -> tensor d :=
  match d with
  | O => fun _ => 0
  | S d' => fun t => map (zeros_like d') t
  end.

(** All results of a list of fallible computations, or the first failure. *)
Fixpoint sequence {A} (xs : list (option A)) : option (list A) :=
  match xs with
  | [] => Some []
  | None :: _ => None
  | Some x :: xs' =>
      match sequence xs' with
      | Some ys => Some (x :: ys)
      | None => None
      end
  end.

(** The sum of the members of a list of equally shaped tensors; the shape
    of the result is read off the first member. *)
Definition add_all (d : nat) (ts : list (tensor d)) : option (tensor d) :=
  match ts with
  | [] => None
  | x :: _ => Some (fold_right (add d) (zeros_like d x) ts)
  end.

(** [torch.sum(t, dim=a)]: axis [a] is summed away.  Axis 0 adds the
    members of the outer list; a deeper axis is summed inside every
    member.  Summing a row gives its total, 0 for an empty row.  An axis
    that does not exist is an [IndexError] in torch ([None] here), and so
    is, in this model, axis 0 of an empty list of tensors, whose inner
    shape a nested list does not record. *)
Fixpoint sum (d : nat) (a : nat) : tensor (S d) -> option (tensor d) :=
  match d with
  | O => fun row =>
      match a with
      | O => Some (fold_right Qcplus 0 row)
      | S _ => None
      end
  | S d' => fun t =>
      match a with
      | O => add_all (S d') t
      | S a' => sequence (map (sum d' a') t)
      end
  end.

End Torch.

(** ** Boole's rule ([integration/boole.py]) *)

Module Boole.

(** Integer and decimal literals of the source. *)
Definition lit (z : Z) : Qc := Q2Qc (inject_Z z).
Definition lit_22_5 : Qc := Q2Qc (45 # 2).

(** The five strided windows of line 73-77, on one row:
    [row[a:b][::4]]. *)
Definition window (start : Z) (stop : option Z) (row : list Qc) : list Qc :=
  Py.stride 4 (Py.slice (Some start) stop row).

(** Lines 69-79: the tensor assigned to [cur_dim_areas] before the sum,
    [h / 22.5 * (7 * t[..., 0:-4][..., ::4] + 32 * t[..., 1:-3][..., ::4]
     + 12 * t[..., 2:-2][..., ::4] + 32 * t[..., 3:-1][..., ::4]
     + 7 * t[..., 4:][..., ::4])]. *)
Definition stencil (d : nat) (h : Qc) (t : tensor (S d)) : tensor (S d) :=
  let sl start stop := Torch.on_last d (window start stop) t in
  let add := Torch.add (S d) in
  let mul c := Torch.scale (S d) (lit c) in
  Torch.scale (S d) (h / lit_22_5)
    (add (add (add (add (mul 7%Z (sl 0%Z (Some (-4)%Z)))
                        (mul 32%Z (sl 1%Z (Some (-3)%Z))))
                   (mul 12%Z (sl 2%Z (Some (-2)%Z))))
              (mul 32%Z (sl 3%Z (Some (-1)%Z))))
         (mul 7%Z (sl 4%Z None))).

(** One pass of the loop body of line 68 for loop counter [cur_dim] on a
    tensor that still has [S d] axes: the stencil with [h[cur_dim]], then
    [torch.sum(..., dim=dim - cur_dim - 1)].  [h[cur_dim]] beyond the end of
    [h] is an [IndexError]. *)
Definition collapse_step (dim cur_dim : nat) (hs : list Qc) (d : nat)
    (t : tensor (S d)) : option (tensor d) :=
  match nth_error hs cur_dim with
  | None => None
  | Some h => Torch.sum d (dim - cur_dim - 1) (stencil d h t)
  end.

(** Lines 65-80: [for cur_dim in range(dim)], started at [cur_dim] with a
    tensor of [d] remaining axes. *)
Fixpoint collapse_from (dim cur_dim : nat) (hs : list Qc) (d : nat)
    : tensor d -> option Qc :=
  match d with
  | O => fun x => Some x
  | S d' => fun t =>
      match collapse_step dim cur_dim hs d' t with
      | None => None
      | Some t' => collapse_from dim (S cur_dim) hs d' t'
      end
  end.

Definition collapse (dim : nat) (hs : list Qc) (t : tensor dim) : option Qc :=
  collapse_from dim 0 hs dim t.

End Boole.

(** ** Shapes *)

(** [has_shape d sh t]: the tensor [t] has the axis lengths [sh]. *)
Fixpoint has_shape (d : nat) (sh : list nat) : tensor d -> bool :=
  match d with
  | O => fun _ => match sh with [] => true | _ :: _ => false end
  | S d' => fun t =>
      match sh with
      | [] => false
      | n :: sh' => (length t =? n)%nat && forallb (has_shape d' sh') t
      end
  end.

(** A dense hyper-grid: [n] values along each of the [d] axes. *)
Definition cube (n d : nat) (t : tensor d) : bool := has_shape d (repeat n d) t.

(** ** The composite closed Newton-Cotes rule of Boole, as a formula *)

Module Composite.

(** The contribution of window [k] of the row [f]:
    [h/22.5 * (7 f[4k] + 32 f[4k+1] + 12 f[4k+2] + 32 f[4k+3] + 7 f[4k+4])]. *)
Definition boole_window (h : Qc) (f : list Qc) (k : nat) : Qc :=
  h / Boole.lit_22_5 *
  (Boole.lit 7 * nth (4 * k) f 0 + Boole.lit 32 * nth (4 * k + 1) f 0
   + Boole.lit 12 * nth (4 * k + 2) f 0 + Boole.lit 32 * nth (4 * k + 3) f 0
   + Boole.lit 7 * nth (4 * k + 4) f 0).

(** Sum of a list of numbers. *)
Definition total (xs : list Qc) : Qc := fold_right Qcplus 0 xs.

(** Product of a list of numbers. *)
Definition product (xs : list Qc) : Qc := fold_right Qcmult 1 xs.

(** Number of whole windows on an axis of [n] points; window [k] spans
    the points [4k .. 4k+4], so consecutive windows share an endpoint. *)
Definition windows (n : nat) : nat := (n - 1) / 4.

(** The composite Boole sum of one row. *)
Definition boole_sum (h : Qc) (f : list Qc) : Qc :=
  total (map (boole_window h f) (seq 0 (windows (length f)))).

(** A reduction [g] of rows applied along the last axis. *)
Fixpoint along_last (d : nat) (g : list Qc -> Qc) : tensor (S d) -> tensor d :=
  match d with
  | O => fun row => g row
  | S d' => fun t => map (along_last d' g) t
  end.

(** The last axis is reduced by the composite sum with spacing [h] taken
    from the head of [hs], until no axis is left. *)
Fixpoint boole_all (d : nat) (hs : list Qc) : tensor d -> Qc :=
  match d with
  | O => fun x => x
  | S d' => fun t =>
      boole_all d' (tl hs) (along_last d' (boole_sum (hd 0 hs)) t)
  end.

End Composite.

(** The row the stencil of lines 69-79 leaves of one row. *)
Definition stencil_row (h : Qc) (row : list Qc) : list Qc :=
  let w s stop := Boole.window s stop row in
  let zadd := Torch.zip_with Qcplus in
  let mul c := map (Qcmult (Boole.lit c)) in
  map (Qcmult (h / Boole.lit_22_5))
    (zadd (zadd (zadd (zadd (mul 7%Z (w 0%Z (Some (-4)%Z)))
                            (mul 32%Z (w 1%Z (Some (-3)%Z))))
                      (mul 12%Z (w 2%Z (Some (-2)%Z))))
                (mul 32%Z (w 3%Z (Some (-1)%Z))))
          (mul 7%Z (w 4%Z None))).



(** ** Collapsing the axes in another order

    [Boole.integrate] always collapses the last axis.  The same stencil
    and sum along an arbitrary axis, for a dense grid of side [n]. *)

Module AnyAxis.

(** [torch.zeros([n] * d)]. *)
Fixpoint zeros (n d : nat) : tensor d :=
  match d with
  | O => 0
  | S d' => repeat (zeros n d') n
  end.







End AnyAxis.

(** ** Exceptions and runs *)

Inductive exn : Type :=
| ValueError
| TypeError
| IndexError
| RuntimeError
| IntegralNotReady.

Inductive result (A : Type) : Type :=
| Ok (a : A)
| Raise (e : exn).
Arguments Ok {A} a.
Arguments Raise {A} e.

(** A point of the integration domain and a domain [[lo, hi], ...]. *)
Definition point : Type := list Qc.
Definition domain : Type := list (Qc * Qc).

(** What a call of [integrate] does: the batches of points it passed to the
    integrand, oldest first, and how it ended. *)
Record run (A : Type) : Type := mkRun {
  calls : list (list point);
  outcome : result A
}.
Arguments mkRun {A} calls outcome.
Arguments calls {A} r.
Arguments outcome {A} r.

(** [t.reshape([n] * d)] of a flat tensor, row-major; a [RuntimeError]
    ([None]) when the number of entries is not [n ^ d]. *)
Fixpoint chunks {A} (count size : nat) (xs : list A) : list (list A) :=
  match count with
  | O => []
  | S count' => firstn size xs :: chunks count' size (skipn size xs)
  end.

Fixpoint reshape (d n : nat) (flat : list Qc) : option (tensor d) :=
  match d with
  | O => match flat with [x] => Some x | _ => None end
  | S d' =>
      if (length flat =? n * n ^ d')%nat
      then Torch.sequence (map (reshape d' n) (chunks n (n ^ d') flat))
      else None
  end.

(** The part of [IntegrationGrid] that [Boole.integrate] reads. *)
Record IntegrationGrid : Type := mkGrid {
  _N : Z;
  points : list point;
  h : list Qc
}.

Module BooleIntegrator.

Section Integrate.

(** [BaseIntegrator._check_inputs] and the constructor of
    [IntegrationGrid] are not among the sources; [integrate] is
    modelled for any of them.  [check_inputs] gives the exception it
    raises, if any. *)
Variable check_inputs : Z -> Z -> option domain -> option exn.
Variable new_IntegrationGrid : Z -> option domain -> result IntegrationGrid.

(** Modelled from the spec: [utils.setup_integration_domain], which is
    not among the sources; the domain defaults to [[-1, 1]^dim]. *)
Definition setup_integration_domain (dim : Z) (d : option domain) : domain :=
  match d with
  | Some d => d
  | None => repeat (Boole.lit (-1), Boole.lit 1) (Z.to_nat dim)
  end.

(** [Boole.integrate(fn, dim, N, integration_domain)], lines 33-83.
    [fn] is the batched integrand.  The grid is built from the
    argument [integration_domain] (line 47), not from
    [self._integration_domain].  [BaseIntegrator._eval] (line 58) is not
    among the sources and is modelled as the call of [fn] on the points.
    The repository's [_eval] raises a [ValueError] of its own when the
    integrand does not return one value per point; this model describes
    the runs whose integrand does. *)
Definition integrate (fn : list point -> list Qc) (dim N : Z)
    (integration_domain : option domain) : run Qc :=
  match check_inputs dim N integration_domain with
  | Some e => mkRun [] (Raise e)
  | None =>
      let _integration_domain :=
        setup_integration_domain dim integration_domain in
      match new_IntegrationGrid N integration_domain with
      | Raise e => mkRun [] (Raise e)
      | Ok grid =>
          if ((_N grid - 1) mod 4 >? 0)%Z
          then mkRun [] (Raise ValueError)
          else
            let function_values := fn (points grid) in
            let evaluated := [points grid] in
            match reshape (Z.to_nat dim) (Z.to_nat (_N grid))
                          function_values with
            | None => mkRun evaluated (Raise RuntimeError)
            | Some cur_dim_areas =>
                match Boole.collapse (Z.to_nat dim) (h grid)
                                     cur_dim_areas with
                | None => mkRun evaluated (Raise IndexError)
                | Some v => mkRun evaluated (Ok v)
                end
            end
      end
  end.

End Integrate.

End BooleIntegrator.

(** Trailing grid points of an axis of [n] points that lie beyond the
    endpoint [4 * windows] of the last whole window. *)
Definition dropped (n : nat) : nat := n - (4 * Composite.windows n + 1).


(** ** The adaptive grid

    [adaptive_grid.py] is not among the sources.  Its classes are modelled
    from sections 3, 4.2 and 4.3 of the specification. *)

(** Row-major enumeration of a product: the last axis varies fastest. *)
Fixpoint cartesian {A} (axes : list (list A)) : list (list A) :=
  match axes with
  | [] => [[]]
  | a :: rest => flat_map (fun x => map (cons x) (cartesian rest)) a
  end.

(** [n] equally spaced coordinates from [lo] to [hi]. *)
Definition linspace (lo hi : Qc) (n : nat) : list Qc :=
  map (fun j => lo + Boole.lit (Z.of_nat j)
                     * ((hi - lo) / Boole.lit (Z.of_nat n - 1)))
      (seq 0 n).

(** The largest [k] with [k ^ d <= N]. *)
Definition iroot (d N : nat) : nat :=
  last (filter (fun k => (k ^ d <=? N)%nat) (seq 0 (S N))) 0%nat.

Module Subdomain.

(** Modelled from the spec: the record of section 3.  [fval] is the flat
    cache in the order of [generate_points]; an entry is [None] until
    its value is known. *)
Record t : Type := mk {
  bounds : domain;
  N_per_dim : nat;
  h : list Qc;
  fval : list (option Qc);
  refinement_level : nat;
  integral_value : Qc;
  requires_integral_value : bool
}.

(** Modelled from the spec: [generate_points], the [N_per_dim ^ dim]
    grid points in row-major order. *)
Definition generate_points (s : t) : list point :=
  cartesian (map (fun b => linspace (fst b) (snd b) (N_per_dim s)) (bounds s)).

Definition is_missing (v : option Qc) : bool :=
  match v with None => true | Some _ => false end.

(** The grid points whose value is not cached yet. *)
Definition pending_points (s : t) : list point :=
  map fst (filter (fun pv => is_missing (snd pv))
                  (combine (generate_points s) (fval s))).

(** The cache with its first missing entries filled from [values]. *)
Fixpoint fill (cache : list (option Qc)) (values : list Qc) : list (option Qc) :=
  match cache with
  | [] => []
  | Some v :: cache' => Some v :: fill cache' values
  | None :: cache' =>
      match values with
      | [] => None :: cache'
      | v :: values' => Some v :: fill cache' values'
      end
  end.

(** Modelled from the spec: [ingest_values], a full or partial set of
    values for the pending points, in their order; marks the subdomain
    as needing a new integral. *)
Definition ingest_values (values : list Qc) (s : t) : t :=
  mk (bounds s) (N_per_dim s) (h s) (fill (fval s) values)
     (refinement_level s) (integral_value s) true.

(** Modelled from the spec: [set_integral] stores the result and clears
    the flag ([compute_integral] of section 4.2, whose rule the driver
    applies itself). *)
Definition set_integral (result : Qc) (s : t) : t :=
  mk (bounds s) (N_per_dim s) (h s) (fval s)
     (refinement_level s) result false.

Definition flat_index (n : nat) (idx : list nat) : nat :=
  fold_left (fun acc i => (acc * n + i)%nat) idx 0%nat.

(** The value a child grid point inherits: child cell [c], grid index
    [j] in the child; along every axis the point coincides with the
    parent point [(c (n-1) + j) / spd] when the division is exact. *)
Definition inherited (spd n : nat) (parent : list (option Qc))
    (c j : list nat) : option Qc :=
  let pos := Torch.zip_with (fun ck jk => (ck * (n - 1) + jk)%nat) c j in
  if forallb (fun q => (q mod spd =? 0)%nat) pos
  then nth (flat_index n (map (fun q => (q / spd)%nat) pos)) parent None
  else None.

Definition child_bounds (spd : nat) (b : domain) (c : list nat) : domain :=
  Torch.zip_with
    (fun lohi ck =>
       let w := (snd lohi - fst lohi) / Boole.lit (Z.of_nat spd) in
       (fst lohi + Boole.lit (Z.of_nat ck) * w,
        fst lohi + Boole.lit (Z.of_nat ck + 1) * w))
    b c.

(** Modelled from the spec: [split], the [spd ^ dim] children one level
    deeper, with the parent's values at coincident points when
    [reuse_old_fvals] is set. *)
Definition split (spd : nat) (reuse_old_fvals : bool) (s : t) : list t :=
  let n := N_per_dim s in
  let dim := length (bounds s) in
  map (fun c =>
         mk (child_bounds spd (bounds s) c) n
            (map (fun x => x / Boole.lit (Z.of_nat spd)) (h s))
            (map (fun j => if reuse_old_fvals
                           then inherited spd n (fval s) c j
                           else None)
                 (cartesian (repeat (seq 0 n) dim)))
            (S (refinement_level s)) 0 true)
      (cartesian (repeat (seq 0 spd) dim)).

(** Evaluations a subdomain still asks for. *)
Definition missing (s : t) : nat :=
  length (filter is_missing (fval s)).

End Subdomain.

Module AdaptiveGrid.

(** Modelled from the spec: the record of section 3.  [total_budget] is
    the [N] the grid is constructed with. *)
Record t : Type := mk {
  subdomains : list Subdomain.t;
  total_budget : Z;
  evals_spent : nat;
  max_refinement_level : nat;
  subdomains_per_dim : nat;
  reuse_old_fvals : bool
}.

Definition remaining (g : t) : nat :=
  Z.to_nat (total_budget g - Z.of_nat (evals_spent g)).

Definition with_subdomains (subs : list Subdomain.t) (g : t) : t :=
  mk subs (total_budget g) (evals_spent g) (max_refinement_level g)
     (subdomains_per_dim g) (reuse_old_fvals g).

(** Modelled from the spec: the constructor and [initialize], the
    [spd ^ dim] equal subdomains at level 0, each with the per-dimension
    point count derived from [N_adjustment_function(N)]. *)
Definition new (N : Z) (integration_domain : domain)
    (subdomains_per_dim max_refinement_level : nat)
    (complex_function reuse_old_fvals : bool)
    (N_adjustment_function : Z -> Z) : t :=
  let dim := length integration_domain in
  let n := iroot dim (Z.to_nat (N_adjustment_function N)) in
  let root :=
    Subdomain.mk integration_domain n
      (map (fun b => (snd b - fst b) / Boole.lit (Z.of_nat n - 1))
           integration_domain)
      [] 0 0 true in
  mk (map (fun c =>
             Subdomain.mk
               (Subdomain.child_bounds subdomains_per_dim
                  integration_domain c)
               n
               (map (fun x => x / Boole.lit (Z.of_nat subdomains_per_dim))
                    (Subdomain.h root))
               (repeat None (n ^ dim)) 0 0 true)
          (cartesian (repeat (seq 0 subdomains_per_dim) dim)))
     N 0 max_refinement_level subdomains_per_dim reuse_old_fvals.

Definition needs_evaluation (s : Subdomain.t) : bool :=
  Subdomain.requires_integral_value s
  || existsb Subdomain.is_missing (Subdomain.fval s).

(** The points asked of each subdomain in turn, never more than [rem]
    in total. *)
Fixpoint collect (rem : nat) (subs : list Subdomain.t) : list (list point) :=
  match subs with
  | [] => []
  | s :: rest =>
      let want := if needs_evaluation s
                  then Subdomain.pending_points s else [] in
      let take := firstn rem want in
      take :: collect (rem - length take) rest
  end.

(** Modelled from the spec: [get_next_eval_points], one flat batch and
    the chunk size of every subdomain; the batch is truncated to the
    remaining budget. *)
Definition get_next_eval_points (g : t) : list point * list nat :=
  let per := collect (remaining g) (subdomains g) in
  (concat per, map (@length point) per).

Fixpoint scatter (values : list Qc) (chunksizes : list nat)
    (subs : list Subdomain.t) : list Subdomain.t :=
  match chunksizes, subs with
  | c :: cs, s :: rest =>
      (if (0 <? c)%nat
       then Subdomain.ingest_values (firstn c values) s
       else s)
      :: scatter (skipn c values) cs rest
  | _, _ => subs
  end.

(** Modelled from the spec: [set_fvals] hands every subdomain its slice
    of the values and counts them as spent. *)
Definition set_fvals (values : list Qc) (chunksizes : list nat) (g : t) : t :=
  mk (scatter values chunksizes (subdomains g)) (total_budget g)
     (evals_spent g + length values) (max_refinement_level g)
     (subdomains_per_dim g) (reuse_old_fvals g).

Fixpoint refine_list (spd : nat) (reuse : bool) (max_level rem : nat)
    (subs : list Subdomain.t) : list Subdomain.t :=
  match subs with
  | [] => []
  | s :: rest =>
      let children := Subdomain.split spd reuse s in
      let cost := list_sum (map Subdomain.missing children) in
      if ((Subdomain.refinement_level s <? max_level)%nat
          && (cost <=? rem)%nat)%bool
      then children ++ refine_list spd reuse max_level (rem - cost) rest
      else s :: refine_list spd reuse max_level rem rest
  end.

(** Modelled from the spec: [refine] splits every subdomain below the
    level cap whose children would not ask for more evaluations than
    remain. *)
Definition refine (g : t) : t :=
  with_subdomains
    (refine_list (subdomains_per_dim g) (reuse_old_fvals g)
       (max_refinement_level g) (remaining g) (subdomains g)) g.

(** Modelled from the spec: [get_integral], the sum of the subdomain
    integrals, a fatal error while a subdomain is stale. *)
Definition get_integral (g : t) : result Qc :=
  if existsb Subdomain.requires_integral_value (subdomains g)
  then Raise IntegralNotReady
  else Ok (Composite.total (map Subdomain.integral_value (subdomains g))).

End AdaptiveGrid.


(** ** The adaptive driver ([integration/adaptive_newton_cotes.py]) *)

Module AdaptiveNewtonCotes.

(** What the driver does to the outside: a batch passed to the
    integrand, or a call of [refine]. *)
Inductive event : Type :=
| Evaluated (batch : list point)
| Refined.

(** The integrator while [integrate] runs: [self._grid],
    [self._nr_of_fevals], and the events so far, oldest first. *)
Record state : Type := mkState {
  _grid : AdaptiveGrid.t;
  _nr_of_fevals : nat;
  trace : list event
}.

(** Points passed to the integrand in a trace. *)
Fixpoint points_passed (tr : list event) : nat :=
  match tr with
  | [] => 0
  | Evaluated batch :: tr' => length batch + points_passed tr'
  | Refined :: tr' => points_passed tr'
  end.

Definition batches (tr : list event) : list (list point) :=
  flat_map (fun e => match e with Evaluated b => [b] | Refined => [] end) tr.

(** Modelled from the spec: [utils._setup_integration_domain], which is
    not among the sources; the domain defaults to [[-1, 1]^dim]. *)
Definition _setup_integration_domain (dim : Z) (d : option domain) : domain :=
  match d with
  | Some d => d
  | None => repeat (Boole.lit (-1), Boole.lit 1) (Z.to_nat dim)
  end.

Section Integrate.

(** [BaseIntegrator._check_inputs], the rule's [_adjust_N] and
    [_apply_composite_rule] are not among the sources; the driver is
    modelled for any of them.  The composite rule receives the cached
    values, the shape [[N_per_dim] * dim] they are reshaped to, [dim]
    and the spacings. *)
Variable check_inputs : Z -> Z -> domain -> option exn.
Variable _adjust_N : Z -> Z -> Z.
Variable _apply_composite_rule :
  list (option Qc) -> list nat -> Z -> list Qc -> Qc.

(** The batched integrand. *)
Variable fn : list point -> list Qc.

Variable dim : Z.
Variable N : Z.

(** Lines 85-101, the body of [for subdomain in self._grid.subdomains]. *)
Definition integrate_subdomain (subdomain : Subdomain.t) : Subdomain.t :=
  if negb (Subdomain.requires_integral_value subdomain)
  then subdomain
  else
    let function_values := Subdomain.fval subdomain in
    let shape := repeat (Subdomain.N_per_dim subdomain) (Z.to_nat dim) in
    let result :=
      _apply_composite_rule function_values shape dim
                            (Subdomain.h subdomain) in
    Subdomain.set_integral result subdomain.

(** Lines 72-101: one evaluation of the pending points and the
    integration of the stale subdomains.  Modelled from the spec:
    [BaseIntegrator._eval] passes the batch to [fn] and adds its size
    to [_nr_of_fevals]. *)
Definition evaluate_and_integrate (st : state) : state :=
  let '(eval_points, chunksizes) :=
    AdaptiveGrid.get_next_eval_points (_grid st) in
  let function_values := fn eval_points in
  let grid := AdaptiveGrid.set_fvals function_values chunksizes (_grid st) in
  mkState
    (AdaptiveGrid.with_subdomains
       (map integrate_subdomain (AdaptiveGrid.subdomains grid)) grid)
    (_nr_of_fevals st + length eval_points)
    (trace st ++ [Evaluated eval_points]).

(** Line 103. *)
Definition hit_maximum_evals (st : state) : bool :=
  (N <=? Z.of_nat (_nr_of_fevals st))%Z.

(** Line 107. *)
Definition refine (st : state) : state :=
  mkState (AdaptiveGrid.refine (_grid st)) (_nr_of_fevals st)
          (trace st ++ [Refined]).

(** Lines 70-107: at most [passes] passes of the [while] loop.  The
    flag tells whether the loop has been left. *)
Fixpoint run_passes (passes : nat) (st : state) : state * bool :=
  match passes with
  | O => (st, false)
  | S passes' =>
      let st1 := evaluate_and_integrate st in
      if hit_maximum_evals st1 then (st1, true)
      else run_passes passes' (refine st1)
  end.

(** The loop with fuel: the state it is left in, [None] when the fuel
    does not suffice. *)
Definition loop (fuel : nat) (st : state) : option state :=
  match run_passes fuel st with
  | (st', true) => Some st'
  | (_, false) => None
  end.

(** Lines 56-68: the grid is constructed with [N // 10]. *)
Definition initial_N : Z := (N / 10)%Z.

Definition initial_grid (integration_domain : domain)
    (subdomains_per_dim max_refinement_level : nat)
    (complex_function reuse_old_fvals : bool) : AdaptiveGrid.t :=
  AdaptiveGrid.new initial_N integration_domain subdomains_per_dim
    max_refinement_level complex_function reuse_old_fvals
    (fun x => _adjust_N dim x).

(** The integrator when the loop is entered.  Modelled from the spec:
    [BaseIntegrator.__init__] starts [_nr_of_fevals] at 0. *)
Definition initial_state (integration_domain : option domain)
    (subdomains_per_dim max_refinement_level : nat)
    (complex_function reuse_old_fvals : bool) : state :=
  mkState
    (initial_grid (_setup_integration_domain dim integration_domain)
       subdomains_per_dim max_refinement_level complex_function
       reuse_old_fvals)
    0 [].

(** [AdaptiveNewtonCotes.integrate], lines 42-109. *)
Definition integrate (fuel : nat)
    (subdomains_per_dim max_refinement_level : nat)
    (integration_domain : option domain)
    (complex_function reuse_old_fvals : bool) : option (run Qc) :=
  let _integration_domain :=
    _setup_integration_domain dim integration_domain in
  match check_inputs dim N _integration_domain with
  | Some e => Some (mkRun [] (Raise e))
  | None =>
      match loop fuel
              (initial_state integration_domain subdomains_per_dim
                 max_refinement_level complex_function reuse_old_fvals)
      with
      | None => None
      | Some st =>
          Some (mkRun (batches (trace st))
                      (AdaptiveGrid.get_integral (_grid st)))
      end
  end.

(** The driver of the remark in section 4.4 of the specification: every
    subdomain is integrated in every pass, stale or not. *)
Definition integrate_every_subdomain (subdomain : Subdomain.t) : Subdomain.t :=
  Subdomain.set_integral
    (_apply_composite_rule (Subdomain.fval subdomain)
       (repeat (Subdomain.N_per_dim subdomain) (Z.to_nat dim)) dim
       (Subdomain.h subdomain))
    subdomain.

Definition evaluate_and_integrate_all (st : state) : state :=
  let '(eval_points, chunksizes) :=
    AdaptiveGrid.get_next_eval_points (_grid st) in
  let function_values := fn eval_points in
  let grid := AdaptiveGrid.set_fvals function_values chunksizes (_grid st) in
  mkState
    (AdaptiveGrid.with_subdomains
       (map integrate_every_subdomain (AdaptiveGrid.subdomains grid)) grid)
    (_nr_of_fevals st + length eval_points)
    (trace st ++ [Evaluated eval_points]).

Fixpoint run_passes_all (passes : nat) (st : state) : state * bool :=
  match passes with
  | O => (st, false)
  | S passes' =>
      let st1 := evaluate_and_integrate_all st in
      if hit_maximum_evals st1 then (st1, true)
      else run_passes_all passes' (refine st1)
  end.

Definition loop_all (fuel : nat) (st : state) : option state :=
  match run_passes_all fuel st with
  | (st', true) => Some st'
  | (_, false) => None
  end.

(** The state right after the evaluation and integration of pass
    [k + 1], had the loop not been left before. *)
Definition after_pass (k : nat) (st : state) : state :=
  evaluate_and_integrate
    (Nat.iter k (fun s => refine (evaluate_and_integrate s)) st).

End Integrate.

End AdaptiveNewtonCotes.


(** ** Checks on the events of a run *)

(** Every [refine] in [tr] happens while the evaluation count, [count] at
    the start of [tr], is still below [N]. *)
Fixpoint refined_only_below (N : Z) (count : nat)
    (tr : list AdaptiveNewtonCotes.event) : bool :=
  match tr with
  | [] => true
  | AdaptiveNewtonCotes.Evaluated batch :: tr' =>
      refined_only_below N (count + length batch) tr'
  | AdaptiveNewtonCotes.Refined :: tr' =>
      (Z.of_nat count <? N)%Z && refined_only_below N count tr'
  end.

(** The last event of a trace is an evaluation. *)
Definition ends_with_evaluation (tr : list AdaptiveNewtonCotes.event) : bool :=
  match rev tr with
  | AdaptiveNewtonCotes.Evaluated _ :: _ => true
  | _ => false
  end.

(** No subdomain of the grid is stale. *)
Definition all_fresh (g : AdaptiveGrid.t) : bool :=
  forallb (fun s => negb (Subdomain.requires_integral_value s))
          (AdaptiveGrid.subdomains g).


(** A grid that will not ask for another evaluation: every cache is
    complete and every subdomain has reached the level cap. *)
Definition stalled (g : AdaptiveGrid.t) : bool :=
  forallb (fun s =>
             negb (existsb Subdomain.is_missing (Subdomain.fval s))
             && (AdaptiveGrid.max_refinement_level g
                 <=? Subdomain.refinement_level s)%nat)
          (AdaptiveGrid.subdomains g).


(** Invariant (d) of section 3 of the specification: the stored integral
    of every subdomain that is not stale is the composite rule applied to
    its cached values. *)
Definition estimate_current
    (rule : list (option Qc) -> list nat -> Z -> list Qc -> Qc) (dim : Z)
    (s : Subdomain.t) : Prop :=
  Subdomain.requires_integral_value s = false ->
  Subdomain.integral_value s =
  rule (Subdomain.fval s) (repeat (Subdomain.N_per_dim s) (Z.to_nat dim)) dim
       (Subdomain.h s).

Definition estimates_current
    (rule : list (option Qc) -> list nat -> Z -> list Qc -> Qc) (dim : Z)
    (g : AdaptiveGrid.t) : Prop :=
  Forall (estimate_current rule dim) (AdaptiveGrid.subdomains g).


(** ** The regular grid of [Boole.integrate] *)

Definition Qcltb (x y : Qc) : bool :=
  match (x ?= y) with Lt => true | _ => false end.

Module RegularGrid.

(** Modelled from the spec: the constructor of [IntegrationGrid]
    ([integration_grid.py] is not among the sources), after the grid of
    a subdomain in section 3: [N^(1/dim)] points per dimension (the
    docstring of [Boole.integrate]), the spacing
    [(high - low) / (N_per_dim - 1)] and the points in row-major order.
    A missing domain has no dimensions to read: [TypeError].  The
    constructor refuses [N < 2] with a [ValueError]; so it does a domain
    without dimensions and a grid of fewer than two points per dimension,
    which has no spacing. *)
Definition new (N : Z) (integration_domain : option domain)
    : result IntegrationGrid :=
  match integration_domain with
  | None => Raise TypeError
  | Some dom =>
      let n := iroot (length dom) (Z.to_nat N) in
      if ((length dom <? 1)%nat || (N <? 2)%Z || (n <? 2)%nat)%bool
      then Raise ValueError
      else
        Ok (mkGrid (Z.of_nat n)
              (cartesian (map (fun b => linspace (fst b) (snd b) n) dom))
              (map (fun b => (snd b - fst b) / Boole.lit (Z.of_nat n - 1))
                   dom))
  end.

(** Modelled from the spec: [_check_inputs] after sections 6 and 7:
    [dim] and [N] are positive and a given domain has [dim] bounds with
    [low < high]. *)
Definition check_inputs (dim N : Z) (integration_domain : option domain)
    : option exn :=
  if ((1 <=? dim)%Z && (1 <=? N)%Z
      && match integration_domain with
         | None => true
         | Some dom =>
             (Z.of_nat (length dom) =? dim)%Z
             && forallb (fun b => Qcltb (fst b) (snd b)) dom
         end)%bool
  then None else Some ValueError.

End RegularGrid.


(** ** Polynomial integrands *)

Module Poly.

(** A polynomial in several variables is a list of terms
    [c * x1^e1 * ... * xd^ed], each given by [c] and the exponents. *)
Definition term : Type := (Qc * list nat)%type.
Definition t : Type := list term.

Fixpoint monomial (es : list nat) (x : point) : Qc :=
  match es, x with
  | e :: es', xi :: x' => xi ^ e * monomial es' x'
  | _, _ => 1
  end.

Definition eval (p : t) (x : point) : Qc :=
  Composite.total (map (fun ce => fst ce * monomial (snd ce) x) p).


(** Every term has one exponent for each of the [d] variables. *)
Definition arity (d : nat) (p : t) : bool :=
  forallb (fun ce => (length (snd ce) =? d)%nat) p.

(** The integral of a monomial over a box, in closed form:
    the product of [(hi^(e+1) - lo^(e+1)) / (e+1)]. *)
Fixpoint integral_monomial (es : list nat) (box : domain) : Qc :=
  match es, box with
  | e :: es', b :: box' =>
      (snd b ^ S e - fst b ^ S e) / Boole.lit (Z.of_nat (S e))
      * integral_monomial es' box'
  | _, _ => 1
  end.

Definition integral (p : t) (box : domain) : Qc :=
  Composite.total (map (fun ce => fst ce * integral_monomial (snd ce) box) p).

(** The batched integrand that evaluates [p] at every point. *)
Definition fn (p : t) (pts : list point) : list Qc := map (eval p) pts.

End Poly.

(** [Boole._convergence_order], line 19. *)
Definition _convergence_order : nat := 5.

(** The values of [f] on the product of the [axes], as a tensor. *)
Fixpoint tabulate (d : nat) (axes : list (list Qc)) (f : point -> Qc)
    : tensor d :=
  match d with
  | O => f []
  | S d' =>
      map (fun x => tabulate d' (tl axes) (fun rest => f (x :: rest)))
          (hd [] axes)
  end.

(** ** A concrete scenario

    The scenario of section 8 of the specification: [dim = 1], the domain
    [[-1, 1]], [fn(x) = x^2], [N = 1000], [subdomains_per_dim = 2],
    [max_refinement_level = 2]. *)

Module Scenario.


(** An adjustment that keeps [N]. *)
Definition keep_N (dim N : Z) : Z := N.

(** A composite rule: the sum of the cached values times the spacings. *)
Definition riemann_rule (values : list (option Qc)) (shape : list nat)
    (dim : Z) (h : list Qc) : Qc :=
  fold_right Qcmult 1 h
  * Composite.total
      (map (fun v => match v with Some x => x | None => 0 end) values).

Definition square (pts : list point) : list Qc :=
  map (fun p => hd 0 p * hd 0 p) pts.

Definition N : Z := 1000.

(** The grid the driver constructs in the scenario. *)
Definition grid : AdaptiveGrid.t :=
  AdaptiveNewtonCotes.initial_grid keep_N 1 N
    (AdaptiveNewtonCotes._setup_integration_domain 1 None) 2 2 false true.

(** The same grid, but allowed the whole budget [N] of the driver. *)
Definition grid_with_full_budget : AdaptiveGrid.t :=
  AdaptiveGrid.mk (AdaptiveGrid.subdomains grid) N 0 2 2 true.

(** A small grid for a run that ends: two subdomains of three points,
    with a budget of six evaluations. *)
Definition small_grid : AdaptiveGrid.t :=
  AdaptiveGrid.new 6 [(Boole.lit (-1), Boole.lit 1)] 2 1 false true
    (fun x => 3%Z).

End Scenario.

(** ** The entries of a tensor *)

(** [t.flatten()]: the entries in row-major order. *)
Fixpoint flatten (d : nat) : tensor d -> list Qc :=
  match d with
  | O => fun x => [x]
  | S d' => fun t => concat (map (flatten d') t)
  end.

(** Every entry of a tensor satisfies [P]. *)
Fixpoint all_entries (P : Qc -> Prop) (d : nat) : tensor d -> Prop :=
  match d with
  | O => fun x => P x
  | S d' => fun t => Forall (all_entries P d') t
  end.

(** ** Checks on the shape of a run of the adaptive loop *)

(** The events are an evaluation, then a refinement and an evaluation any
    number of times. *)
Fixpoint alternating (tr : list AdaptiveNewtonCotes.event) : bool :=
  match tr with
  | [AdaptiveNewtonCotes.Evaluated _] => true
  | AdaptiveNewtonCotes.Evaluated _ :: AdaptiveNewtonCotes.Refined :: tr' =>
      alternating tr'
  | _ => false
  end.

(** Number of calls of [refine] in a trace. *)
Definition refinements (tr : list AdaptiveNewtonCotes.event) : nat :=
  length (filter (fun e => match e with
                           | AdaptiveNewtonCotes.Refined => true
                           | AdaptiveNewtonCotes.Evaluated _ => false
                           end) tr).

(** ** Exactness on polynomials *)

(** The number 2, for rewriting the literals of the rule as sums of 1. *)
Definition two : Qc := 1 + 1.

(** Every exponent of every term is at most [k]. *)
Definition exponents_le (k : nat) (p : Poly.t) : bool :=
  forallb (fun ce => forallb (fun e => (e <=? k)%nat) (snd ce)) p.

(** The product over the axes of the composite sums, with spacing 1, of
    the powers [x ^ e] of the coordinates. *)
Fixpoint unit_sums (es : list nat) (axes : list (list Qc)) : Qc :=
  match es, axes with
  | e :: es', a :: axes' =>
      Composite.boole_sum 1 (map (fun x => x ^ e) a) * unit_sums es' axes'
  | _, _ => 1
  end.

(** The volume of a box. *)
Definition volume (box : domain) : Qc :=
  Composite.product (map (fun b => snd b - fst b) box).

(** * Theorems *)

(** ** Python slices and strides as index maps *)

Section PySequences.

Context {A : Type}.
Implicit Types xs : list A.

Lemma nth_skipn_plus (n i : nat) xs (d : A) :
  nth i (skipn n xs) d = nth (n + i) xs d.
Proof.
  revert xs; induction n as [|n IH]; intros xs; [reflexivity|].
  destruct xs as [|x xs]; simpl; [now destruct i | apply IH].
Qed.

Lemma stride_aux_nth (d : A) (fuel : nat) : forall xs,
  (length xs <= fuel)%nat ->
  Py.stride_aux fuel 4 xs =
  map (fun k => nth (4 * k) xs d) (seq 0 ((length xs + 3) / 4)).
Proof.
  induction fuel as [|fuel IH]; intros xs Hlen.
  - destruct xs; [reflexivity | simpl in Hlen; lia].
  - destruct xs as [|x xs]; [reflexivity|].
    cbn [Py.stride_aux].
    rewrite IH by (rewrite length_skipn; simpl in *; lia).
    rewrite length_skipn.
    replace ((length (x :: xs) + 3) / 4)%nat
      with (S ((length (x :: xs) - 4 + 3) / 4)) by (simpl length; lia).
    cbn [seq map]. f_equal.
    rewrite <- seq_shift, map_map.
    apply map_ext; intros k.
    rewrite nth_skipn_plus. f_equal. lia.
Qed.

Lemma stride_nth (d : A) xs :
  Py.stride 4 xs =
  map (fun k => nth (4 * k) xs d) (seq 0 ((length xs + 3) / 4)).
Proof. apply stride_aux_nth. apply le_n. Qed.

Lemma nth_firstn_lt (n i : nat) xs (d : A) :
  (i < n)%nat -> nth i (firstn n xs) d = nth i xs d.
Proof.
  revert i xs; induction n as [|n IH]; intros i xs Hi; [lia|].
  destruct xs as [|x xs]; [reflexivity|].
  destruct i as [|i]; [reflexivity|]. simpl. apply IH. lia.
Qed.

End PySequences.

(** ** The stencil on one row *)

Lemma strided_slice_nth (lo hi : nat) (row : list Qc) :
  Py.stride 4 (firstn (hi - lo) (skipn lo row)) =
  map (fun k => nth (lo + 4 * k) row 0)
      (seq 0 ((Nat.min (hi - lo) (length row - lo) + 3) / 4)).
Proof.
  rewrite (stride_nth 0), length_firstn, length_skipn.
  apply map_ext_in; intros k Hk. apply in_seq in Hk.
  rewrite nth_firstn_lt by lia. apply nth_skipn_plus.
Qed.

Lemma window_nth (s : nat) (stop : option Z) (row : list Qc) :
  (s <= 4)%nat ->
  stop = (if (s =? 4)%nat then None else Some (Z.of_nat s - 4)%Z) ->
  Boole.window (Z.of_nat s) stop row =
  map (fun k => nth (s + 4 * k) row 0) (seq 0 (Composite.windows (length row))).
Proof.
  intros Hs ->. unfold Boole.window, Py.slice, Composite.windows.
  set (n := length row).
  destruct (le_lt_dec 4 n) as [Hn|Hn].
  - assert (Hlo : Py.adjust_index n (Z.of_nat s) = s).
    { unfold Py.adjust_index. destruct (Z.ltb_spec (Z.of_nat s) 0); lia. }
    rewrite Hlo.
    destruct (Nat.eqb_spec s 4) as [->|Hne].
    + rewrite strided_slice_nth. fold n. f_equal. f_equal. lia.
    + assert (Hhi : Py.adjust_index n (Z.of_nat s - 4) = (n + s - 4)%nat).
      { unfold Py.adjust_index. destruct (Z.ltb_spec (Z.of_nat s - 4) 0); lia. }
      rewrite Hhi, strided_slice_nth. fold n. f_equal. f_equal. lia.
  - replace ((n - 1) / 4)%nat with 0%nat by lia. cbn [seq map].
    assert (Hlo : Py.adjust_index n (Z.of_nat s) = Nat.min s n).
    { unfold Py.adjust_index. destruct (Z.ltb_spec (Z.of_nat s) 0); lia. }
    rewrite Hlo.
    destruct (Nat.eqb_spec s 4) as [->|Hne].
    + rewrite strided_slice_nth. fold n.
      replace ((Nat.min (n - Nat.min 4 n) (n - Nat.min 4 n) + 3) / 4)%nat
        with 0%nat by lia. reflexivity.
    + assert (Hhi : (Py.adjust_index n (Z.of_nat s - 4) <= Nat.min s n)%nat).
      { unfold Py.adjust_index. destruct (Z.ltb_spec (Z.of_nat s - 4) 0); lia. }
      rewrite strided_slice_nth. fold n.
      replace (Py.adjust_index n (Z.of_nat s - 4) - Nat.min s n)%nat
        with 0%nat by lia.
      reflexivity.
Qed.

(** ** Elementwise operations act row by row *)

Lemma zip_with_map {A B C D} (f : B -> C -> D) (g1 : A -> B) (g2 : A -> C) xs :
  Torch.zip_with f (map g1 xs) (map g2 xs) = map (fun x => f (g1 x) (g2 x)) xs.
Proof. induction xs as [|x xs IH]; simpl; [reflexivity | now rewrite IH]. Qed.

Lemma scale_on_last (d : nat) (c : Qc) g (t : tensor (S d)) :
  Torch.scale (S d) c (Torch.on_last d g t) =
  Torch.on_last d (fun row => map (Qcmult c) (g row)) t.
Proof.
  induction d as [|d IH]; [reflexivity|].
  change (map (Torch.scale (S d) c) (map (Torch.on_last d g) t) =
          map (Torch.on_last d (fun row => map (Qcmult c) (g row))) t).
  rewrite map_map. apply map_ext. intros x. apply IH.
Qed.

Lemma add_on_last (d : nat) g1 g2 (t : tensor (S d)) :
  Torch.add (S d) (Torch.on_last d g1 t) (Torch.on_last d g2 t) =
  Torch.on_last d (fun row => Torch.zip_with Qcplus (g1 row) (g2 row)) t.
Proof.
  induction d as [|d IH]; [reflexivity|].
  change (Torch.zip_with (Torch.add (S d))
            (map (Torch.on_last d g1) t) (map (Torch.on_last d g2) t) =
          map (Torch.on_last d
                 (fun row => Torch.zip_with Qcplus (g1 row) (g2 row))) t).
  rewrite zip_with_map. apply map_ext. intros x. apply IH.
Qed.

Lemma sequence_map_Some {A B} (f : A -> B) xs :
  Torch.sequence (map (fun x => Some (f x)) xs) = Some (map f xs).
Proof. induction xs as [|x xs IH]; simpl; [reflexivity | now rewrite IH]. Qed.

Lemma sum_last_on_last (d : nat) g (t : tensor (S d)) :
  Torch.sum d d (Torch.on_last d g t) =
  Some (Composite.along_last d (fun row => Composite.total (g row)) t).
Proof.
  induction d as [|d IH]; [reflexivity|].
  change (Torch.sequence (map (Torch.sum d d) (map (Torch.on_last d g) t)) =
          Some (map (Composite.along_last d
                       (fun row => Composite.total (g row))) t)).
  rewrite map_map, <- sequence_map_Some.
  f_equal. apply map_ext. intros x. apply IH.
Qed.

Lemma stencil_rows (d : nat) (h : Qc) (t : tensor (S d)) :
  Boole.stencil d h t = Torch.on_last d (stencil_row h) t.
Proof.
  unfold Boole.stencil. cbv zeta.
  repeat (rewrite scale_on_last || rewrite add_on_last).
  reflexivity.
Qed.

Lemma stencil_row_windows (h : Qc) (row : list Qc) :
  stencil_row h row =
  map (Composite.boole_window h row) (seq 0 (Composite.windows (length row))).
Proof.
  unfold stencil_row.
  rewrite (window_nth 0 (Some (-4)%Z)), (window_nth 1 (Some (-3)%Z)),
          (window_nth 2 (Some (-2)%Z)), (window_nth 3 (Some (-1)%Z)),
          (window_nth 4 None) by (try reflexivity; lia).
  rewrite !map_map, !zip_with_map, !map_map.
  apply map_ext. intros k. unfold Composite.boole_window.
  replace (4 * k + 4)%nat with (4 + 4 * k)%nat by lia.
  replace (4 * k + 3)%nat with (3 + 4 * k)%nat by lia.
  replace (4 * k + 2)%nat with (2 + 4 * k)%nat by lia.
  replace (4 * k + 1)%nat with (1 + 4 * k)%nat by lia.
  reflexivity.
Qed.

(** ** One pass of the collapse loop, and the whole loop *)

Lemma collapse_step_composite (dim cur_dim d : nat) (hs : list Qc) (h : Qc)
    (t : tensor (S d)) :
  nth_error hs cur_dim = Some h ->
  (dim - cur_dim - 1)%nat = d ->
  Boole.collapse_step dim cur_dim hs d t =
  Some (Composite.along_last d (Composite.boole_sum h) t).
Proof.
  intros Hh Hax. unfold Boole.collapse_step. rewrite Hh, Hax.
  rewrite stencil_rows, sum_last_on_last. f_equal.
  clear. induction d as [|d IH].
  - cbn [Composite.along_last]. unfold Composite.boole_sum.
    now rewrite stencil_row_windows.
  - cbn [Composite.along_last]. apply map_ext. intros x. apply IH.
Qed.

Lemma hd_skipn_nth_error {A} (d : A) (n : nat) (xs : list A) :
  (n < length xs)%nat -> nth_error xs n = Some (hd d (skipn n xs)).
Proof.
  revert xs; induction n as [|n IH]; intros [|x xs] Hn; simpl in *;
    try lia; [reflexivity | apply IH; lia].
Qed.

Lemma hd_skipn_nth {A} (d : A) (n : nat) (xs : list A) :
  hd d (skipn n xs) = nth n xs d.
Proof.
  revert xs; induction n as [|n IH]; intros [|x xs]; try reflexivity.
  apply (IH xs).
Qed.

Lemma tl_skipn {A} (n : nat) (xs : list A) : tl (skipn n xs) = skipn (S n) xs.
Proof.
  revert xs; induction n as [|n IH]; intros [|x xs]; try reflexivity.
  apply (IH xs).
Qed.

Lemma collapse_from_composite (dim : nat) (hs : list Qc) :
  (dim <= length hs)%nat ->
  forall d cur_dim (t : tensor d),
    (cur_dim + d)%nat = dim ->
    Boole.collapse_from dim cur_dim hs d t =
    Some (Composite.boole_all d (skipn cur_dim hs) t).
Proof.
  intros Hlen. induction d as [|d IH]; intros cur_dim t Hsum; [reflexivity|].
  cbn [Boole.collapse_from Composite.boole_all].
  rewrite (collapse_step_composite dim cur_dim d hs (hd 0 (skipn cur_dim hs)))
    by (try apply hd_skipn_nth_error; lia).
  rewrite IH by lia. now rewrite tl_skipn.
Qed.

(** C3.  On a dense grid whose axis length [n] satisfies
    [(n - 1) mod 4 = 0], every pass of the dimension-collapse loop of
    [Boole.integrate] replaces each row along the last remaining axis by
    the composite Boole sum
    [sum_k h/22.5 * (7 f[4k] + 32 f[4k+1] + 12 f[4k+2] + 32 f[4k+3] + 7 f[4k+4])],
    the whole loop is the iteration of that sum over the axes, and the
    windows [4k .. 4k+4] tile the axis: [4 * windows + 1 = n], consecutive
    windows sharing their endpoint. *)
Theorem C3_boole_collapse_is_composite_sum
    (dim n : nat) (hs : list Qc) (t : tensor dim) :
  cube n dim t = true ->
  ((Z.of_nat n - 1) mod 4 = 0)%Z ->
  length hs = dim ->
  (forall cur_dim d (u : tensor (S d)),
      (cur_dim + S d)%nat = dim ->
      Boole.collapse_step dim cur_dim hs d u =
      Some (Composite.along_last d
              (Composite.boole_sum (nth cur_dim hs 0)) u))
  /\ Boole.collapse dim hs t = Some (Composite.boole_all dim hs t)
  /\ (4 * Composite.windows n + 1)%nat = n
  /\ (forall (h : Qc) (f : list Qc),
        length f = n ->
        Composite.boole_sum h f =
        Composite.total
          (map (fun k =>
                  h / Boole.lit_22_5 *
                  (Boole.lit 7 * nth (4 * k) f 0
                   + Boole.lit 32 * nth (4 * k + 1) f 0
                   + Boole.lit 12 * nth (4 * k + 2) f 0
                   + Boole.lit 32 * nth (4 * k + 3) f 0
                   + Boole.lit 7 * nth (4 * k + 4) f 0))
               (seq 0 ((n - 1) / 4)))).
Proof.
  intros _ Hmod Hlen. repeat split.
  - intros cur_dim d u Hsum.
    apply collapse_step_composite; [|lia].
    rewrite (hd_skipn_nth_error 0) by lia. f_equal. apply hd_skipn_nth.
  - unfold Boole.collapse.
    now rewrite (collapse_from_composite dim hs) by lia.
  - unfold Composite.windows. lia.
  - intros h f Hf. unfold Composite.boole_sum, Composite.windows.
    now rewrite Hf.
Qed.

(** ** The grid-size check of [Boole.integrate] *)

(** C5.  Once the inputs are accepted and the grid is built: when the
    per-dimension point count [_N] does not satisfy [(_N - 1) mod 4 = 0],
    [Boole.integrate] raises [ValueError] and passes nothing to the
    integrand; when it does, no [ValueError] is raised, the integrand is
    called exactly once, on the points of the grid, and no trailing grid
    point is dropped by the stencil (while a count that fails the check
    would leave trailing points outside every window). *)
Theorem C5_grid_size_check
    (check_inputs : Z -> Z -> option domain -> option exn)
    (new_grid : Z -> option domain -> result IntegrationGrid)
    (fn : list point -> list Qc) (dim N : Z) (dom : option domain)
    (grid : IntegrationGrid) :
  check_inputs dim N dom = None ->
  new_grid N dom = Ok grid ->
  let r := BooleIntegrator.integrate check_inputs new_grid fn dim N dom in
  let n := Z.to_nat (_N grid) in
  (((_N grid - 1) mod 4 <> 0)%Z ->
     r = mkRun [] (Raise ValueError)
     /\ ((1 <= _N grid)%Z -> (0 < dropped n)%nat))
  /\ (((_N grid - 1) mod 4 = 0)%Z ->
     outcome r <> Raise ValueError
     /\ calls r = [points grid]
     /\ dropped n = 0%nat
     /\ ((1 <= _N grid)%Z -> (4 * Composite.windows n + 1)%nat = n)
     /\ ((1 < n)%nat ->
         forall j, (j < n)%nat ->
           exists k, (k < Composite.windows n)%nat
                     /\ (4 * k <= j <= 4 * k + 4)%nat)).
Proof.
  intros Hchk Hgrid r n. subst r.
  unfold BooleIntegrator.integrate. rewrite Hchk, Hgrid.
  split; intros Hmod.
  - destruct (Z.gtb_spec ((_N grid - 1) mod 4) 0) as [_|Hle]; [|lia].
    split; [reflexivity|].
    intros Hpos. unfold dropped, Composite.windows. subst n. lia.
  - destruct (Z.gtb_spec ((_N grid - 1) mod 4) 0) as [Hgt|_]; [lia|].
    assert (Hcalls : forall A (x y : run A) (b : bool),
               calls x = [points grid] -> calls y = [points grid] ->
               calls (if b then x else y) = [points grid])
      by (intros ? ? ? []; auto).
    repeat split.
    + destruct (reshape _ _ _); [destruct (Boole.collapse _ _ _)|];
        cbn; discriminate.
    + destruct (reshape _ _ _); [destruct (Boole.collapse _ _ _)|];
        reflexivity.
    + unfold dropped, Composite.windows. subst n. lia.
    + intros Hpos. unfold Composite.windows. subst n. lia.
    + intros Hn j Hj. exists (Nat.min (j / 4) (Composite.windows n - 1)).
      unfold Composite.windows in *. subst n. lia.
Qed.

(** ** The adaptive grid: evaluation accounting *)

Lemma collect_within (rem : nat) (subs : list Subdomain.t) :
  (length (concat (AdaptiveGrid.collect rem subs)) <= rem)%nat.
Proof.
  revert rem; induction subs as [|s subs IH]; intros rem; simpl; [lia|].
  rewrite length_app.
  set (take := firstn rem _).
  assert (length take <= rem)%nat by (subst take; rewrite length_firstn; lia).
  specialize (IH (rem - length take)%nat). lia.
Qed.

Lemma next_eval_points_within (g : AdaptiveGrid.t) :
  (length (fst (AdaptiveGrid.get_next_eval_points g))
   <= AdaptiveGrid.remaining g)%nat.
Proof. apply collect_within. Qed.

Lemma refine_budget (g : AdaptiveGrid.t) :
  AdaptiveGrid.total_budget (AdaptiveGrid.refine g) = AdaptiveGrid.total_budget g
  /\ AdaptiveGrid.evals_spent (AdaptiveGrid.refine g) = AdaptiveGrid.evals_spent g.
Proof. split; reflexivity. Qed.

Lemma refine_remaining (g : AdaptiveGrid.t) :
  AdaptiveGrid.remaining (AdaptiveGrid.refine g) = AdaptiveGrid.remaining g.
Proof. reflexivity. Qed.

Lemma points_passed_app (a b : list AdaptiveNewtonCotes.event) :
  AdaptiveNewtonCotes.points_passed (a ++ b) =
  (AdaptiveNewtonCotes.points_passed a + AdaptiveNewtonCotes.points_passed b)%nat.
Proof.
  induction a as [|[batch|] a IH]; simpl; [reflexivity | | exact IH].
  rewrite IH. lia.
Qed.

Section DriverFacts.

Import AdaptiveNewtonCotes.

Variable _apply_composite_rule :
  list (option Qc) -> list nat -> Z -> list Qc -> Qc.
Variable fn : list point -> list Qc.
Variable dim N : Z.

Local Notation "'step'" :=
  (evaluate_and_integrate _apply_composite_rule fn dim).
Local Notation "'passes_of'" :=
  (run_passes _apply_composite_rule fn dim N).

Lemma step_batch (st : state) :
  exists batch,
    trace (step st) = trace st ++ [Evaluated batch]
    /\ _nr_of_fevals (step st) = (_nr_of_fevals st + length batch)%nat
    /\ (length batch <= AdaptiveGrid.remaining (_grid st))%nat
    /\ AdaptiveGrid.total_budget (_grid (step st)) =
       AdaptiveGrid.total_budget (_grid st)
    /\ AdaptiveGrid.evals_spent (_grid (step st)) =
       (AdaptiveGrid.evals_spent (_grid st) + length (fn batch))%nat.
Proof.
  unfold evaluate_and_integrate.
  pose proof (next_eval_points_within (_grid st)) as Hlen.
  destruct (AdaptiveGrid.get_next_eval_points (_grid st)) as [pts cs].
  exists pts. cbn in *. repeat split; auto.
Qed.

(** The points passed so far and the budget that remains add up to what
    they added up to at the start. *)
Lemma step_conserves (st : state) :
  (forall pts, length (fn pts) = length pts) ->
  (points_passed (trace (step st))
   + AdaptiveGrid.remaining (_grid (step st)))%nat =
  (points_passed (trace st) + AdaptiveGrid.remaining (_grid st))%nat.
Proof.
  intros Hfn. destruct (step_batch st) as (b & Htr & _ & Hle & Hbud & Hsp).
  rewrite Htr, points_passed_app. unfold AdaptiveGrid.remaining in *.
  rewrite Hbud, Hsp, Hfn. simpl. lia.
Qed.

Lemma passes_conserve (k : nat) : forall st,
  (forall pts, length (fn pts) = length pts) ->
  (points_passed (trace (fst (passes_of k st)))
   + AdaptiveGrid.remaining (_grid (fst (passes_of k st))))%nat =
  (points_passed (trace st) + AdaptiveGrid.remaining (_grid st))%nat.
Proof.
  induction k as [|k IH]; intros st Hfn; [reflexivity|].
  cbn [run_passes].
  destruct (hit_maximum_evals N (step st)).
  - apply step_conserves, Hfn.
  - rewrite IH by exact Hfn. cbn [refine trace _grid].
    rewrite points_passed_app, refine_remaining. cbn [points_passed].
    rewrite Nat.add_0_r. apply step_conserves, Hfn.
Qed.

Lemma passes_count (k : nat) : forall st,
  (_nr_of_fevals (fst (passes_of k st))
   + points_passed (trace st))%nat =
  (_nr_of_fevals st + points_passed (trace (fst (passes_of k st))))%nat.
Proof.
  induction k as [|k IH]; intros st; [reflexivity|].
  cbn [run_passes].
  destruct (step_batch st) as (b & Htr & Hnr & _).
  destruct (hit_maximum_evals N (step st)).
  - cbn [fst]. rewrite Htr, Hnr, points_passed_app.
    cbn [points_passed length]. lia.
  - specialize (IH (refine (step st))). cbn [refine trace _nr_of_fevals] in IH.
    rewrite Hnr, points_passed_app, Htr, points_passed_app in IH.
    cbn [points_passed length] in IH. lia.
Qed.

End DriverFacts.

(** ** C1: the evaluation budget *)

Lemma budget_never_exceeded_from
    (rule : list (option Qc) -> list nat -> Z -> list Qc -> Qc)
    (fn : list point -> list Qc) (dim N : Z)
    (g0 : AdaptiveGrid.t) (passes : nat) (seen rest : list AdaptiveNewtonCotes.event) :
  (forall pts, length (fn pts) = length pts) ->
  (AdaptiveGrid.total_budget g0 - Z.of_nat (AdaptiveGrid.evals_spent g0) <= N)%Z ->
  (0 <= N)%Z ->
  let st := fst (AdaptiveNewtonCotes.run_passes rule fn dim N passes
                   (AdaptiveNewtonCotes.mkState g0 0 [])) in
  AdaptiveNewtonCotes.trace st = seen ++ rest ->
  (Z.of_nat (AdaptiveNewtonCotes.points_passed seen) <= N)%Z
  /\ (Z.of_nat (AdaptiveNewtonCotes._nr_of_fevals st) <= N)%Z.
Proof.
  intros Hfn Hbudget HN st Htr.
  pose proof (passes_conserve rule fn dim N passes
                (AdaptiveNewtonCotes.mkState g0 0 []) Hfn) as Hcons.
  pose proof (passes_count rule fn dim N passes
                (AdaptiveNewtonCotes.mkState g0 0 [])) as Hcount.
  fold st in Hcons, Hcount.
  cbn [AdaptiveNewtonCotes.trace AdaptiveNewtonCotes._grid
       AdaptiveNewtonCotes._nr_of_fevals
       AdaptiveNewtonCotes.points_passed] in Hcons, Hcount.
  rewrite Htr, points_passed_app in Hcons.
  rewrite Htr, points_passed_app in Hcount.
  unfold AdaptiveGrid.remaining in Hcons. split; lia.
Qed.

(** C1.  In every call of [AdaptiveNewtonCotes.integrate] with a budget
    [N >= 0] and an integrand that returns one value per point, at every
    moment of the run (after any number of passes of the loop, and for
    every initial part [seen] of the events so far) the number of points
    passed to the integrand is at most [N]; so is [_nr_of_fevals]. *)
Theorem C1_budget_never_exceeded
    (_adjust_N : Z -> Z -> Z)
    (rule : list (option Qc) -> list nat -> Z -> list Qc -> Qc)
    (fn : list point -> list Qc) (dim N : Z)
    (subdomains_per_dim max_refinement_level : nat)
    (integration_domain : option domain)
    (complex_function reuse_old_fvals : bool)
    (passes : nat) (seen rest : list AdaptiveNewtonCotes.event) :
  (forall pts, length (fn pts) = length pts) ->
  (0 <= N)%Z ->
  let st := fst (AdaptiveNewtonCotes.run_passes rule fn dim N passes
                   (AdaptiveNewtonCotes.initial_state _adjust_N dim N
                      integration_domain subdomains_per_dim
                      max_refinement_level complex_function
                      reuse_old_fvals)) in
  AdaptiveNewtonCotes.trace st = seen ++ rest ->
  (Z.of_nat (AdaptiveNewtonCotes.points_passed seen) <= N)%Z
  /\ (Z.of_nat (AdaptiveNewtonCotes._nr_of_fevals st) <= N)%Z.
Proof.
  intros Hfn HN. unfold AdaptiveNewtonCotes.initial_state.
  apply budget_never_exceeded_from; [exact Hfn | | exact HN].
  cbn. unfold AdaptiveNewtonCotes.initial_N. lia.
Qed.

(** ** C8 and C9: how the loop is left *)

Section LoopExit.

Import AdaptiveNewtonCotes.

Variable rule : list (option Qc) -> list nat -> Z -> list Qc -> Qc.
Variable fn : list point -> list Qc.
Variable dim N : Z.

Local Notation "'step'" := (evaluate_and_integrate rule fn dim).
Local Notation "'passes_of'" := (run_passes rule fn dim N).

Lemma refined_only_below_app (count : nat) (a b : list event) :
  refined_only_below N count (a ++ b) =
  refined_only_below N count a
  && refined_only_below N (count + points_passed a) b.
Proof.
  revert count; induction a as [|[batch|] a IH]; intros count; simpl.
  - now rewrite Nat.add_0_r.
  - rewrite IH. f_equal. f_equal. lia.
  - rewrite IH. now rewrite andb_assoc.
Qed.

Lemma passes_events (k : nat) : forall st,
  exists new,
    trace (fst (passes_of k st)) = trace st ++ new
    /\ refined_only_below N (_nr_of_fevals st) new = true
    /\ _nr_of_fevals (fst (passes_of k st)) =
       (_nr_of_fevals st + points_passed new)%nat
    /\ (snd (passes_of k st) = true ->
        hit_maximum_evals N (fst (passes_of k st)) = true
        /\ ends_with_evaluation (trace (fst (passes_of k st))) = true
        /\ exists s, fst (passes_of k st) = step s).
Proof.
  induction k as [|k IH]; intros st.
  - exists []. cbn. rewrite app_nil_r. repeat split; auto; discriminate.
  - cbn [run_passes].
    destruct (step_batch rule fn dim st) as (b & Htr & Hnr & _).
    destruct (hit_maximum_evals N (step st)) eqn:Hhit.
    + exists [Evaluated b]. cbn [fst snd]. repeat split; auto.
      * rewrite Hnr. cbn [points_passed]. lia.
      * unfold ends_with_evaluation. rewrite Htr, rev_app_distr. reflexivity.
      * now exists st.
    + destruct (IH (refine (step st))) as (new & Hnew & Hchk & Hcnt & Hexit).
      cbn [refine trace _nr_of_fevals] in Hnew, Hchk, Hcnt.
      exists ([Evaluated b; Refined] ++ new). repeat split.
      * rewrite Hnew, Htr, <- !app_assoc. reflexivity.
      * rewrite refined_only_below_app. cbn [refined_only_below points_passed].
        unfold hit_maximum_evals in Hhit. rewrite Hnr in Hhit, Hchk.
        rewrite Nat.add_0_r.
        apply Z.leb_gt in Hhit.
        destruct (Z.ltb_spec (Z.of_nat (_nr_of_fevals st + length b)) N);
          [exact Hchk | lia].
      * rewrite Hcnt, Hnr. cbn [app points_passed]. lia.
      * now apply Hexit.
      * now apply Hexit.
      * now apply Hexit.
Qed.

Lemma step_all_fresh (st : state) : all_fresh (_grid (step st)) = true.
Proof.
  unfold evaluate_and_integrate.
  destruct (AdaptiveGrid.get_next_eval_points (_grid st)) as [pts cs].
  unfold all_fresh. cbn. apply forallb_forall. intros s Hs.
  apply in_map_iff in Hs. destruct Hs as (s0 & <- & _).
  unfold integrate_subdomain.
  destruct (Subdomain.requires_integral_value s0) eqn:E; cbn;
    [reflexivity | now rewrite E].
Qed.

Lemma fresh_integral (g : AdaptiveGrid.t) :
  all_fresh g = true ->
  AdaptiveGrid.get_integral g =
  Ok (Composite.total (map Subdomain.integral_value (AdaptiveGrid.subdomains g))).
Proof.
  unfold all_fresh, AdaptiveGrid.get_integral. intros H.
  destruct (existsb _ _) eqn:E; [|reflexivity].
  apply existsb_exists in E. destruct E as (s & Hs & Hreq).
  rewrite forallb_forall in H. specialize (H s Hs).
  now rewrite Hreq in H.
Qed.

End LoopExit.

(** C8.  In every run of the loop (from any state, for any number of
    passes) each call of [refine] happens while [_nr_of_fevals] is below
    [N]; since the count never decreases, [refine] is not invoked once it
    has reached [N].  When the loop is left, the count has reached [N]
    and the last thing the loop did was an evaluation: no [refine] lies
    between it and [get_integral]. *)
Theorem C8_no_refine_after_budget
    (rule : list (option Qc) -> list nat -> Z -> list Qc -> Qc)
    (fn : list point -> list Qc) (dim N : Z)
    (st : AdaptiveNewtonCotes.state) (passes : nat) :
  let r := AdaptiveNewtonCotes.run_passes rule fn dim N passes st in
  refined_only_below N (AdaptiveNewtonCotes._nr_of_fevals st)
    (skipn (length (AdaptiveNewtonCotes.trace st))
           (AdaptiveNewtonCotes.trace (fst r))) = true
  /\ (snd r = true ->
      (N <= Z.of_nat (AdaptiveNewtonCotes._nr_of_fevals (fst r)))%Z
      /\ ends_with_evaluation (AdaptiveNewtonCotes.trace (fst r)) = true).
Proof.
  intros r. subst r.
  destruct (passes_events rule fn dim N passes st)
    as (new & Htr & Hchk & _ & Hexit).
  split.
  - rewrite Htr, skipn_app, skipn_all, Nat.sub_diag. exact Hchk.
  - intros Hdone. destruct (Hexit Hdone) as (Hhit & Hend & _).
    split; [|exact Hend].
    unfold AdaptiveNewtonCotes.hit_maximum_evals in Hhit. lia.
Qed.

(** C9.  Whenever the loop is left and the driver calls [get_integral],
    no subdomain of the grid is stale, and [get_integral] returns the sum
    of the subdomain integrals instead of failing. *)
Theorem C9_fresh_at_get_integral
    (rule : list (option Qc) -> list nat -> Z -> list Qc -> Qc)
    (fn : list point -> list Qc) (dim N : Z)
    (st st' : AdaptiveNewtonCotes.state) (fuel : nat) :
  AdaptiveNewtonCotes.loop rule fn dim N fuel st = Some st' ->
  all_fresh (AdaptiveNewtonCotes._grid st') = true
  /\ Forall (fun s => Subdomain.requires_integral_value s = false)
            (AdaptiveGrid.subdomains (AdaptiveNewtonCotes._grid st'))
  /\ AdaptiveGrid.get_integral (AdaptiveNewtonCotes._grid st') =
     Ok (Composite.total
           (map Subdomain.integral_value
                (AdaptiveGrid.subdomains (AdaptiveNewtonCotes._grid st')))).
Proof.
  unfold AdaptiveNewtonCotes.loop. intros Hloop.
  destruct (passes_events rule fn dim N fuel st) as (_ & _ & _ & _ & Hexit).
  destruct (AdaptiveNewtonCotes.run_passes rule fn dim N fuel st)
    as [s [|]] eqn:E; [|discriminate].
  injection Hloop as <-. destruct (Hexit eq_refl) as (_ & _ & s0 & Hs0).
  cbn [fst] in Hs0. subst s.
  pose proof (step_all_fresh rule fn dim s0) as Hfresh.
  repeat split; [exact Hfresh | | now apply fresh_integral].
  apply Forall_forall. intros x Hx. unfold all_fresh in Hfresh.
  rewrite forallb_forall in Hfresh. specialize (Hfresh x Hx).
  now destruct (Subdomain.requires_integral_value x).
Qed.

(** ** C2: when the loop is left *)

Section LoopTermination.

Import AdaptiveNewtonCotes.

Variable rule : list (option Qc) -> list nat -> Z -> list Qc -> Qc.
Variable fn : list point -> list Qc.
Variable dim N : Z.

Local Notation "'step'" := (evaluate_and_integrate rule fn dim).
Local Notation "'passes_of'" := (run_passes rule fn dim N).
Local Notation "'after'" := (after_pass rule fn dim).
Local Notation "'hit'" := (hit_maximum_evals N).





End LoopTermination.


(** ** A grid at the level cap with complete caches stalls the loop *)

Lemma filter_none {A} (f : A -> bool) (xs : list A) :
  (forall x, In x xs -> f x = false) -> filter f xs = [].
Proof.
  induction xs as [|x xs IH]; intros H; [reflexivity|]. simpl.
  rewrite (H x) by now left. apply IH. intros y Hy. apply H. now right.
Qed.

Lemma complete_nothing_pending (s : Subdomain.t) :
  existsb Subdomain.is_missing (Subdomain.fval s) = false ->
  Subdomain.pending_points s = [].
Proof.
  intros Hfull. unfold Subdomain.pending_points.
  rewrite filter_none; [reflexivity|].
  intros [p v] Hin. apply in_combine_r in Hin. cbn.
  destruct (Subdomain.is_missing v) eqn:E; [|reflexivity].
  assert (existsb Subdomain.is_missing (Subdomain.fval s) = true)
    by (apply existsb_exists; eauto).
  congruence.
Qed.

Lemma collect_complete (rem : nat) (subs : list Subdomain.t) :
  forallb (fun s => negb (existsb Subdomain.is_missing (Subdomain.fval s)))
          subs = true ->
  AdaptiveGrid.collect rem subs = map (fun _ => []) subs.
Proof.
  revert rem; induction subs as [|s subs IH]; intros rem H; [reflexivity|].
  cbn in H. apply andb_prop in H. destruct H as [Hs Hrest].
  apply negb_true_iff in Hs. cbn [AdaptiveGrid.collect map].
  rewrite (complete_nothing_pending s Hs).
  replace (firstn rem (if AdaptiveGrid.needs_evaluation s then [] else []))
    with (@nil point) by (destruct (AdaptiveGrid.needs_evaluation s);
                          now rewrite firstn_nil).
  cbn [length]. rewrite IH by exact Hrest. reflexivity.
Qed.

Lemma concat_nils {A B} (xs : list A) :
  concat (map (fun _ => @nil B) xs) = [].
Proof. induction xs as [|x xs IH]; [reflexivity | exact IH]. Qed.

Lemma scatter_nothing (values : list Qc) (subs : list Subdomain.t) :
  AdaptiveGrid.scatter values (map (fun _ => 0%nat) subs) subs = subs.
Proof.
  revert values; induction subs as [|s subs IH]; intros values;
    [reflexivity|].
  cbn. now rewrite IH.
Qed.

Lemma refine_list_capped (spd : nat) (reuse : bool) (cap rem : nat)
    (subs : list Subdomain.t) :
  forallb (fun s => (cap <=? Subdomain.refinement_level s)%nat) subs = true ->
  AdaptiveGrid.refine_list spd reuse cap rem subs = subs.
Proof.
  induction subs as [|s subs IH]; intros H; [reflexivity|].
  cbn in H. apply andb_prop in H. destruct H as [Hs Hrest].
  apply Nat.leb_le in Hs. cbn [AdaptiveGrid.refine_list].
  replace (Subdomain.refinement_level s <? cap)%nat with false
    by (symmetry; apply Nat.ltb_ge; exact Hs).
  cbn [andb]. now rewrite IH.
Qed.

Section Stall.

Import AdaptiveNewtonCotes.

Variable rule : list (option Qc) -> list nat -> Z -> list Qc -> Qc.
Variable fn : list point -> list Qc.
Variable dim N : Z.

Local Notation "'step'" := (evaluate_and_integrate rule fn dim).
Local Notation "'passes_of'" := (run_passes rule fn dim N).

Lemma stalled_split (g : AdaptiveGrid.t) :
  stalled g = true ->
  forallb (fun s => negb (existsb Subdomain.is_missing (Subdomain.fval s)))
          (AdaptiveGrid.subdomains g) = true
  /\ forallb (fun s => (AdaptiveGrid.max_refinement_level g
                        <=? Subdomain.refinement_level s)%nat)
             (AdaptiveGrid.subdomains g) = true.
Proof.
  unfold stalled. intros H. split; apply forallb_forall; intros s Hs;
    rewrite forallb_forall in H; specialize (H s Hs);
    apply andb_prop in H; tauto.
Qed.

Lemma integrate_keeps_cache (s : Subdomain.t) :
  Subdomain.fval (integrate_subdomain rule dim s) = Subdomain.fval s
  /\ Subdomain.refinement_level (integrate_subdomain rule dim s) =
     Subdomain.refinement_level s.
Proof.
  unfold integrate_subdomain.
  destruct (negb (Subdomain.requires_integral_value s)); split; reflexivity.
Qed.

Lemma stalled_pass (st : state) :
  stalled (_grid st) = true ->
  stalled (_grid (refine (step st))) = true
  /\ _nr_of_fevals (refine (step st)) = _nr_of_fevals st.
Proof.
  intros Hst. destruct (stalled_split _ Hst) as [Hfull Hcap].
  assert (Hstep : stalled (_grid (step st)) = true
                  /\ _nr_of_fevals (step st) = _nr_of_fevals st).
  { unfold evaluate_and_integrate, AdaptiveGrid.get_next_eval_points.
    rewrite (collect_complete _ _ Hfull).
    rewrite map_map. cbn [length].
    rewrite concat_nils.
    cbn [_grid _nr_of_fevals length]. split; [|lia].
    unfold stalled, AdaptiveGrid.set_fvals, AdaptiveGrid.with_subdomains.
    cbn [AdaptiveGrid.subdomains AdaptiveGrid.max_refinement_level].
    rewrite scatter_nothing.
    apply forallb_forall. intros s Hs. apply in_map_iff in Hs.
    destruct Hs as (s0 & <- & Hs0).
    destruct (integrate_keeps_cache s0) as [-> ->].
    unfold stalled in Hst. rewrite forallb_forall in Hst. now apply Hst. }
  destruct Hstep as [Hstalled Hnr]. split; [|exact Hnr].
  destruct (stalled_split _ Hstalled) as [_ Hcap'].
  cbn [refine _grid]. unfold AdaptiveGrid.refine.
  rewrite refine_list_capped by exact Hcap'.
  unfold stalled, AdaptiveGrid.with_subdomains in *.
  cbn [AdaptiveGrid.subdomains AdaptiveGrid.max_refinement_level].
  exact Hstalled.
Qed.

Lemma stalled_never_exits (k : nat) : forall st,
  stalled (_grid st) = true ->
  (Z.of_nat (_nr_of_fevals st) < N)%Z ->
  snd (passes_of k st) = false.
Proof.
  induction k as [|k IH]; intros st Hst Hlt; [reflexivity|].
  cbn [run_passes]. destruct (stalled_pass st Hst) as [Hst' Hnr'].
  cbn [refine _nr_of_fevals] in Hnr'.
  destruct (hit_maximum_evals N (step st)) eqn:Hhit.
  - unfold hit_maximum_evals in Hhit. apply Z.leb_le in Hhit. lia.
  - apply IH; [exact Hst'|]. cbn [refine _nr_of_fevals]. lia.
Qed.


End Stall.

Lemma square_one_value_per_point (pts : list point) :
  length (Scenario.square pts) = length pts.
Proof. apply length_map. Qed.


(** ** C7: integrating every subdomain in every pass *)

Section RecomputeAll.

Import AdaptiveNewtonCotes.

Variable rule : list (option Qc) -> list nat -> Z -> list Qc -> Qc.
Variable fn : list point -> list Qc.
Variable dim N : Z.

Local Notation "'current'" := (estimate_current rule dim).

Lemma integrate_every_eq (s : Subdomain.t) :
  current s ->
  integrate_every_subdomain rule dim s = integrate_subdomain rule dim s.
Proof.
  unfold estimate_current, integrate_every_subdomain, integrate_subdomain.
  intros Hcur. destruct s as [b n hs fv lvl iv req]. cbn in *.
  destruct req; cbn; [reflexivity|].
  unfold Subdomain.set_integral. cbn. now rewrite Hcur.
Qed.

Lemma integrate_keeps_current (s : Subdomain.t) :
  current s -> current (integrate_subdomain rule dim s).
Proof.
  unfold estimate_current, integrate_subdomain. intros Hcur.
  destruct (Subdomain.requires_integral_value s) eqn:E; cbn;
    [reflexivity | now rewrite E].
Qed.

Lemma scatter_current (values : list Qc) (cs : list nat) :
  forall subs,
    Forall current subs ->
    Forall current (AdaptiveGrid.scatter values cs subs).
Proof.
  revert values; induction cs as [|c cs IH]; intros values subs H;
    [now destruct subs|].
  destruct subs as [|s subs]; [constructor|].
  cbn [AdaptiveGrid.scatter]. inversion H as [|? ? Hs Hrest]; subst.
  constructor; [|now apply IH].
  destruct (0 <? c)%nat; [|exact Hs].
  unfold estimate_current. cbn. discriminate.
Qed.

Lemma split_current (spd : nat) (reuse : bool) (s : Subdomain.t) :
  Forall current (Subdomain.split spd reuse s).
Proof.
  unfold Subdomain.split. apply Forall_forall. intros c Hc.
  apply in_map_iff in Hc. destruct Hc as (x & <- & _).
  unfold estimate_current. cbn. discriminate.
Qed.

Lemma refine_list_current (spd : nat) (reuse : bool) (cap : nat) :
  forall subs rem,
    Forall current subs ->
    Forall current (AdaptiveGrid.refine_list spd reuse cap rem subs).
Proof.
  induction subs as [|s subs IH]; intros rem H; [constructor|].
  inversion H as [|? ? Hs Hrest]; subst. cbn [AdaptiveGrid.refine_list].
  destruct (_ && _)%bool.
  - apply Forall_app. split; [apply split_current | now apply IH].
  - constructor; [exact Hs | now apply IH].
Qed.

Lemma step_all_eq (st : state) :
  estimates_current rule dim (_grid st) ->
  evaluate_and_integrate_all rule fn dim st =
  evaluate_and_integrate rule fn dim st
  /\ estimates_current rule dim
       (_grid (refine (evaluate_and_integrate rule fn dim st))).
Proof.
  unfold estimates_current, evaluate_and_integrate_all,
    evaluate_and_integrate. intros Hcur.
  destruct (AdaptiveGrid.get_next_eval_points (_grid st)) as [pts cs].
  pose proof (scatter_current (fn pts) cs _ Hcur) as Hsc.
  split.
  - f_equal. unfold AdaptiveGrid.with_subdomains. f_equal.
    cbn [AdaptiveGrid.subdomains AdaptiveGrid.set_fvals].
    apply map_ext_in. intros s Hs. apply integrate_every_eq.
    rewrite Forall_forall in Hsc. now apply Hsc.
  - cbn [refine _grid]. unfold AdaptiveGrid.refine.
    cbn [AdaptiveGrid.with_subdomains AdaptiveGrid.subdomains].
    apply refine_list_current. apply Forall_forall. intros s Hs.
    apply in_map_iff in Hs. destruct Hs as (s0 & <- & Hs0).
    apply integrate_keeps_current.
    rewrite Forall_forall in Hsc. now apply Hsc.
Qed.

Lemma run_passes_all_eq (k : nat) : forall st,
  estimates_current rule dim (_grid st) ->
  run_passes_all rule fn dim N k st = run_passes rule fn dim N k st.
Proof.
  induction k as [|k IH]; intros st Hcur; [reflexivity|].
  cbn [run_passes_all run_passes].
  destruct (step_all_eq st Hcur) as [-> Hnext].
  destruct (hit_maximum_evals N _); [reflexivity | now apply IH].
Qed.

End RecomputeAll.

(** C7.  From a grid in which the stored integral of every subdomain that
    is not stale is the composite rule of its cached values (as in a
    freshly constructed grid, where every subdomain is stale), the loop
    that integrates every subdomain in every pass and the loop that skips
    the subdomains whose [requires_integral_value] is false make the same
    passes, end in the same state and return the same integral. *)
Theorem C7_recompute_all_same_result
    (rule : list (option Qc) -> list nat -> Z -> list Qc -> Qc)
    (fn : list point -> list Qc) (dim N : Z)
    (st : AdaptiveNewtonCotes.state) (fuel : nat) :
  estimates_current rule dim (AdaptiveNewtonCotes._grid st) ->
  AdaptiveNewtonCotes.run_passes_all rule fn dim N fuel st =
  AdaptiveNewtonCotes.run_passes rule fn dim N fuel st
  /\ AdaptiveNewtonCotes.loop_all rule fn dim N fuel st =
     AdaptiveNewtonCotes.loop rule fn dim N fuel st
  /\ option_map (fun s => AdaptiveGrid.get_integral (AdaptiveNewtonCotes._grid s))
       (AdaptiveNewtonCotes.loop_all rule fn dim N fuel st) =
     option_map (fun s => AdaptiveGrid.get_integral (AdaptiveNewtonCotes._grid s))
       (AdaptiveNewtonCotes.loop rule fn dim N fuel st).
Proof.
  intros Hcur.
  pose proof (run_passes_all_eq rule fn dim N fuel st Hcur) as Heq.
  assert (Hloop : AdaptiveNewtonCotes.loop_all rule fn dim N fuel st =
                  AdaptiveNewtonCotes.loop rule fn dim N fuel st)
    by (unfold AdaptiveNewtonCotes.loop_all, AdaptiveNewtonCotes.loop;
        now rewrite Heq).
  repeat split; [exact Heq | exact Hloop | now rewrite Hloop].
Qed.

(** ** C10: the budget handed to the grid *)

(** C10.  [AdaptiveNewtonCotes.integrate] constructs its grid with
    [N // 10] (floor division) as the grid's [N], which is less than [N]
    for every [N >= 1]; for [0 <= N < 10] the grid's budget is 0, and
    when the validation accepts such an [N] the driver goes on to run its
    loop on that grid. *)
Theorem C10_grid_constructed_with_tenth
    (check_inputs : Z -> Z -> domain -> option exn)
    (_adjust_N : Z -> Z -> Z)
    (rule : list (option Qc) -> list nat -> Z -> list Qc -> Qc)
    (fn : list point -> list Qc) (dim N : Z)
    (subdomains_per_dim max_refinement_level : nat)
    (integration_domain : option domain)
    (complex_function reuse_old_fvals : bool) :
  let st0 := AdaptiveNewtonCotes.initial_state _adjust_N dim N
               integration_domain subdomains_per_dim max_refinement_level
               complex_function reuse_old_fvals in
  let g := AdaptiveNewtonCotes._grid st0 in
  g = AdaptiveGrid.new (N / 10)
        (AdaptiveNewtonCotes._setup_integration_domain dim integration_domain)
        subdomains_per_dim max_refinement_level complex_function
        reuse_old_fvals (fun x => _adjust_N dim x)
  /\ AdaptiveGrid.total_budget g = (N / 10)%Z
  /\ ((1 <= N)%Z -> (AdaptiveGrid.total_budget g < N)%Z)
  /\ ((0 <= N < 10)%Z ->
      AdaptiveGrid.total_budget g = 0%Z
      /\ AdaptiveGrid.remaining g = 0%nat)
  /\ (check_inputs dim N
        (AdaptiveNewtonCotes._setup_integration_domain dim integration_domain)
      = None ->
      forall fuel,
        AdaptiveNewtonCotes.integrate check_inputs _adjust_N rule fn dim N
          fuel subdomains_per_dim max_refinement_level integration_domain
          complex_function reuse_old_fvals =
        option_map
          (fun st => mkRun (AdaptiveNewtonCotes.batches
                              (AdaptiveNewtonCotes.trace st))
                           (AdaptiveGrid.get_integral
                              (AdaptiveNewtonCotes._grid st)))
          (AdaptiveNewtonCotes.loop rule fn dim N fuel st0)).
Proof.
  intros st0 g. subst g st0. repeat split.
  - cbn. unfold AdaptiveNewtonCotes.initial_N. lia.
  - cbn. unfold AdaptiveNewtonCotes.initial_N. lia.
  - unfold AdaptiveGrid.remaining. cbn.
    unfold AdaptiveNewtonCotes.initial_N. lia.
  - intros Hchk fuel. unfold AdaptiveNewtonCotes.integrate. rewrite Hchk.
    now destruct (AdaptiveNewtonCotes.loop _ _ _ _ _ _).
Qed.

(** ** The theorems at concrete inputs *)

Lemma C1_budget_never_exceeded_witness :
  let st := fst (AdaptiveNewtonCotes.run_passes Scenario.riemann_rule
                   Scenario.square 1 30 2
                   (AdaptiveNewtonCotes.initial_state Scenario.keep_N 1 30
                      None 2 2 false true)) in
  (Z.of_nat (AdaptiveNewtonCotes.points_passed (AdaptiveNewtonCotes.trace st))
   <= 30)%Z
  /\ (Z.of_nat (AdaptiveNewtonCotes._nr_of_fevals st) <= 30)%Z.
Proof.
  apply (C1_budget_never_exceeded Scenario.keep_N Scenario.riemann_rule
           Scenario.square 1 30 2 2 None false true 2 _ []).
  - exact square_one_value_per_point.
  - lia.
  - symmetry. apply app_nil_r.
Defined.

Lemma C3_boole_collapse_is_composite_sum_witness :
  let t : tensor 1 :=
    [Boole.lit 1; Boole.lit 2; Boole.lit 3; Boole.lit 4; Boole.lit 5] in
  cube 5 1 t = true
  /\ Boole.collapse 1 [Boole.lit 1] t =
     Some (Composite.boole_all 1 [Boole.lit 1] t).
Proof.
  intros t. split; [reflexivity|].
  apply (C3_boole_collapse_is_composite_sum 1 5 [Boole.lit 1] t);
    reflexivity.
Defined.

Lemma C5_grid_size_check_witness :
  outcome (BooleIntegrator.integrate RegularGrid.check_inputs RegularGrid.new
             Scenario.square 1 6 (Some [(Boole.lit (-1), Boole.lit 1)]))
  = Raise ValueError
  /\ calls (BooleIntegrator.integrate RegularGrid.check_inputs RegularGrid.new
              Scenario.square 1 6 (Some [(Boole.lit (-1), Boole.lit 1)]))
     = [].
Proof.
  destruct (C5_grid_size_check RegularGrid.check_inputs RegularGrid.new
              Scenario.square 1 6 (Some [(Boole.lit (-1), Boole.lit 1)])
              (mkGrid 6
                 (cartesian [linspace (Boole.lit (-1)) (Boole.lit 1) 6])
                 [(Boole.lit 1 - Boole.lit (-1)) / Boole.lit (6 - 1)])
              eq_refl eq_refl) as [Hbad _].
  destruct Hbad as [Hrun _]; [cbn; lia|].
  rewrite Hrun. split; reflexivity.
Defined.

Lemma C7_recompute_all_same_result_witness :
  let st :=
    AdaptiveNewtonCotes.mkState
      (AdaptiveGrid.new 8 [(Boole.lit (-1), Boole.lit 1)] 2 1 false true
         (fun x => 3%Z)) 0 [] in
  let second_pass :=
    AdaptiveNewtonCotes.refine
      (AdaptiveNewtonCotes.evaluate_and_integrate Scenario.riemann_rule
         Scenario.square 1 st) in
  map Subdomain.requires_integral_value
      (AdaptiveGrid.subdomains (AdaptiveNewtonCotes._grid second_pass)) =
  [true; true; false]
  /\ AdaptiveNewtonCotes.loop Scenario.riemann_rule Scenario.square 1 8 2 st =
     Some (AdaptiveNewtonCotes.evaluate_and_integrate Scenario.riemann_rule
             Scenario.square 1 second_pass)
  /\ AdaptiveNewtonCotes.loop_all Scenario.riemann_rule Scenario.square 1 8 2
       st =
     AdaptiveNewtonCotes.loop Scenario.riemann_rule Scenario.square 1 8 2 st
  /\ option_map
       (fun s => AdaptiveGrid.get_integral (AdaptiveNewtonCotes._grid s))
       (AdaptiveNewtonCotes.loop_all Scenario.riemann_rule Scenario.square 1
          8 2 st) =
     option_map
       (fun s => AdaptiveGrid.get_integral (AdaptiveNewtonCotes._grid s))
       (AdaptiveNewtonCotes.loop Scenario.riemann_rule Scenario.square 1 8 2
          st).
Proof.
  intros st second_pass.
  split; [vm_compute; reflexivity|]. split; [vm_compute; reflexivity|].
  apply (C7_recompute_all_same_result Scenario.riemann_rule Scenario.square
           1 8 st 2).
  repeat constructor; intros Hreq; discriminate Hreq.
Defined.

Lemma C9_fresh_at_get_integral_witness :
  exists st',
    AdaptiveNewtonCotes.loop Scenario.riemann_rule Scenario.square 1 6 1
      (AdaptiveNewtonCotes.mkState Scenario.small_grid 0 []) = Some st'
    /\ all_fresh (AdaptiveNewtonCotes._grid st') = true.
Proof.
  eexists. split; [reflexivity|].
  apply (C9_fresh_at_get_integral Scenario.riemann_rule Scenario.square 1 6
           (AdaptiveNewtonCotes.mkState Scenario.small_grid 0 []) _ 1).
  reflexivity.
Defined.

(** ** Shapes of dense grids *)

Lemma cube_S (n d : nat) (t : tensor (S d)) :
  cube n (S d) t = true <->
  length t = n /\ Forall (fun x => cube n d x = true) t.
Proof.
  unfold cube. cbn [repeat has_shape].
  rewrite andb_true_iff, Nat.eqb_eq, forallb_forall, Forall_forall.
  reflexivity.
Qed.

Lemma zip_with_length {A B C} (f : A -> B -> C) (xs : list A) (ys : list B) :
  length (Torch.zip_with f xs ys) = Nat.min (length xs) (length ys).
Proof.
  revert ys; induction xs as [|x xs IH]; intros [|y ys]; simpl; auto.
Qed.

Lemma zip_with_Forall {A} (P : A -> Prop) (f : A -> A -> A) (xs ys : list A) :
  (forall x y, P x -> P y -> P (f x y)) ->
  Forall P xs -> Forall P ys -> Forall P (Torch.zip_with f xs ys).
Proof.
  intros Hf Hxs. revert ys; induction Hxs as [|x xs Hx Hxs IH];
    intros ys Hys; [constructor|].
  destruct Hys as [|y ys Hy Hys]; [constructor|].
  cbn. constructor; auto.
Qed.

Lemma add_cube (n d : nat) : forall (x y : tensor d),
  cube n d x = true -> cube n d y = true -> cube n d (Torch.add d x y) = true.
Proof.
  induction d as [|d IH]; intros x y Hx Hy; [reflexivity|].
  apply cube_S in Hx, Hy. destruct Hx as [Lx Fx], Hy as [Ly Fy].
  apply cube_S. cbn [Torch.add]. split.
  - rewrite zip_with_length.
    transitivity (Nat.min n n); [f_equal; assumption | apply Nat.min_id].
  - apply zip_with_Forall; auto.
Qed.

Lemma scale_cube (n d : nat) (c : Qc) : forall (x : tensor d),
  cube n d x = true -> cube n d (Torch.scale d c x) = true.
Proof.
  induction d as [|d IH]; intros x Hx; [reflexivity|].
  apply cube_S in Hx. destruct Hx as [Lx Fx].
  apply cube_S. cbn [Torch.scale]. split; [now rewrite length_map|].
  apply Forall_map. eapply Forall_impl; [|exact Fx]. auto.
Qed.


Lemma along_last_cube (n d : nat) (g : list Qc -> Qc) :
  forall (t : tensor (S d)),
    cube n (S d) t = true -> cube n d (Composite.along_last d g t) = true.
Proof.
  induction d as [|d IH]; intros t Ht; [reflexivity|].
  apply cube_S in Ht. destruct Ht as [Lt Ft].
  apply cube_S. cbn [Composite.along_last]. split; [now rewrite length_map|].
  apply Forall_map. eapply Forall_impl; [|exact Ft]. auto.
Qed.

(** ** The composite sum is linear in the row *)

Lemma total_plus {A} (a b : A -> Qc) (xs : list A) :
  Composite.total (map (fun k => a k + b k) xs) =
  Composite.total (map a xs) + Composite.total (map b xs).
Proof.
  induction xs as [|x xs IH]; cbn; [ring|].
  unfold Composite.total in IH. rewrite IH. ring.
Qed.

Lemma total_times {A} (c : Qc) (a : A -> Qc) (xs : list A) :
  Composite.total (map (fun k => c * a k) xs) = c * Composite.total (map a xs).
Proof.
  induction xs as [|x xs IH]; cbn; [ring|].
  unfold Composite.total in IH. rewrite IH. ring.
Qed.

Lemma nth_scaled (c : Qc) (f : list Qc) (i : nat) :
  nth i (map (Qcmult c) f) 0 = c * nth i f 0.
Proof.
  replace 0 with (c * 0) at 1 by ring. apply map_nth.
Qed.

Lemma nth_added (f g : list Qc) (i : nat) :
  length f = length g ->
  nth i (Torch.zip_with Qcplus f g) 0 = nth i f 0 + nth i g 0.
Proof.
  revert g i; induction f as [|x f IH]; intros [|y g] i Hlen;
    try discriminate Hlen.
  - destruct i; cbn; ring.
  - destruct i as [|i]; cbn; [reflexivity|]. apply IH.
    now injection Hlen.
Qed.

Lemma boole_sum_scaled (h c : Qc) (f : list Qc) :
  Composite.boole_sum h (map (Qcmult c) f) = c * Composite.boole_sum h f.
Proof.
  unfold Composite.boole_sum. rewrite length_map, <- total_times.
  f_equal. apply map_ext. intros k. unfold Composite.boole_window.
  rewrite !nth_scaled. ring.
Qed.

Lemma boole_sum_added (h : Qc) (f g : list Qc) :
  length f = length g ->
  Composite.boole_sum h (Torch.zip_with Qcplus f g) =
  Composite.boole_sum h f + Composite.boole_sum h g.
Proof.
  intros Hlen. unfold Composite.boole_sum.
  rewrite zip_with_length, <- Hlen, Nat.min_id, <- total_plus.
  f_equal. apply map_ext. intros k. unfold Composite.boole_window.
  rewrite !nth_added by exact Hlen. ring.
Qed.

Lemma boole_sum_spacing (h : Qc) (f : list Qc) :
  Composite.boole_sum h f = h * Composite.boole_sum 1 f.
Proof.
  unfold Composite.boole_sum. rewrite <- total_times.
  f_equal. apply map_ext. intros k. unfold Composite.boole_window.
  unfold Qcdiv. ring.
Qed.

Lemma boole_sum_zeros (h : Qc) (n : nat) :
  Composite.boole_sum h (repeat 0 n) = 0.
Proof.
  unfold Composite.boole_sum.
  assert (Hnth : forall i, nth i (repeat (0 : Qc) n) 0 = 0)
    by (intros i; apply nth_repeat).
  induction (seq 0 (Composite.windows (length (repeat (0:Qc) n))))
    as [|k ks IH]; [reflexivity|].
  cbn [map Composite.total fold_right]. unfold Composite.total in IH.
  rewrite IH. unfold Composite.boole_window. rewrite !Hnth. ring.
Qed.

(** ** The full collapse is linear in the tensor *)

Lemma along_last_scale (d : nat) (h c : Qc) : forall (t : tensor (S d)),
  Composite.along_last d (Composite.boole_sum h) (Torch.scale (S d) c t) =
  Torch.scale d c (Composite.along_last d (Composite.boole_sum h) t).
Proof.
  induction d as [|d IH]; intros t.
  - cbn [Composite.along_last Torch.scale]. apply boole_sum_scaled.
  - cbn [Composite.along_last Torch.scale]. rewrite !map_map.
    apply map_ext. intros x. apply IH.
Qed.

Lemma map_zip_with {A B} (g : A -> B) (f : A -> A -> A) (f' : B -> B -> B)
    (P : A -> Prop) (xs ys : list A) :
  (forall x y, P x -> P y -> g (f x y) = f' (g x) (g y)) ->
  Forall P xs -> Forall P ys ->
  map g (Torch.zip_with f xs ys) = Torch.zip_with f' (map g xs) (map g ys).
Proof.
  intros Hg Hxs. revert ys; induction Hxs as [|x xs Hx Hxs IH];
    intros ys Hys; [reflexivity|].
  destruct Hys as [|y ys Hy Hys]; [reflexivity|].
  cbn. now rewrite Hg, IH.
Qed.

Lemma along_last_add (n d : nat) (h : Qc) : forall (x y : tensor (S d)),
  cube n (S d) x = true -> cube n (S d) y = true ->
  Composite.along_last d (Composite.boole_sum h) (Torch.add (S d) x y) =
  Torch.add d (Composite.along_last d (Composite.boole_sum h) x)
              (Composite.along_last d (Composite.boole_sum h) y).
Proof.
  induction d as [|d IH]; intros x y Hx Hy.
  - apply cube_S in Hx, Hy. cbn [Composite.along_last Torch.add].
    apply boole_sum_added.
    transitivity n; [apply Hx | symmetry; apply Hy].
  - apply cube_S in Hx, Hy. destruct Hx as [_ Fx], Hy as [_ Fy].
    cbn [Composite.along_last]. change (Torch.add (S (S d)) x y)
      with (Torch.zip_with (Torch.add (S d)) x y).
    change (Torch.add (S d)
              (map (Composite.along_last d (Composite.boole_sum h)) x)
              (map (Composite.along_last d (Composite.boole_sum h)) y))
      with (Torch.zip_with (Torch.add d)
              (map (Composite.along_last d (Composite.boole_sum h)) x)
              (map (Composite.along_last d (Composite.boole_sum h)) y)).
    apply (map_zip_with _ _ _ (fun u => cube n (S d) u = true)); auto.
Qed.

Lemma boole_all_scale (d : nat) : forall (hs : list Qc) (c : Qc) (t : tensor d),
  Composite.boole_all d hs (Torch.scale d c t) = c * Composite.boole_all d hs t.
Proof.
  induction d as [|d IH]; intros hs c t; [reflexivity|].
  cbn [Composite.boole_all]. now rewrite along_last_scale, IH.
Qed.

Lemma boole_all_add (n d : nat) : forall (hs : list Qc) (x y : tensor d),
  cube n d x = true -> cube n d y = true ->
  Composite.boole_all d hs (Torch.add d x y) =
  Composite.boole_all d hs x + Composite.boole_all d hs y.
Proof.
  induction d as [|d IH]; intros hs x y Hx Hy; [reflexivity|].
  cbn [Composite.boole_all].
  rewrite (along_last_add n) by assumption.
  apply IH; now apply along_last_cube.
Qed.

Lemma along_last_zeros (n d : nat) (h : Qc) :
  Composite.along_last d (Composite.boole_sum h) (AnyAxis.zeros n (S d)) =
  AnyAxis.zeros n d.
Proof.
  induction d as [|d IH].
  - cbn [Composite.along_last AnyAxis.zeros]. apply boole_sum_zeros.
  - cbn [Composite.along_last]. change (AnyAxis.zeros n (S (S d)))
      with (repeat (AnyAxis.zeros n (S d)) n).
    rewrite map_repeat, IH. reflexivity.
Qed.

Lemma boole_all_zeros (n d : nat) : forall hs,
  Composite.boole_all d hs (AnyAxis.zeros n d) = 0.
Proof.
  induction d as [|d IH]; intros hs; [reflexivity|].
  cbn [Composite.boole_all]. now rewrite along_last_zeros.
Qed.

(** The axis collapsed last, the outermost one, sees the last spacing. *)
Lemma boole_all_outer (d : nat) : forall (hs : list Qc) (h : Qc) (t : tensor (S d)),
  length hs = d ->
  Composite.boole_all (S d) (hs ++ [h]) t =
  Composite.boole_sum h (map (Composite.boole_all d hs) t).
Proof.
  induction d as [|d IH]; intros hs h t Hlen.
  - destruct hs; [|discriminate Hlen].
    cbn [app Composite.boole_all Composite.along_last hd tl].
    now rewrite map_id.
  - destruct hs as [|h1 hs1]; [discriminate Hlen|].
    injection Hlen as Hlen.
    change (Composite.boole_all (S (S d)) ((h1 :: hs1) ++ [h]) t)
      with (Composite.boole_all (S d) (hs1 ++ [h])
              (map (Composite.along_last d (Composite.boole_sum h1)) t)).
    rewrite IH by exact Hlen. rewrite map_map. reflexivity.
Qed.

Lemma along_last_spacing (d : nat) (h : Qc) : forall (t : tensor (S d)),
  Composite.along_last d (Composite.boole_sum h) t =
  Torch.scale d h (Composite.along_last d (Composite.boole_sum 1) t).
Proof.
  induction d as [|d IH]; intros t.
  - cbn [Composite.along_last Torch.scale]. apply boole_sum_spacing.
  - cbn [Composite.along_last Torch.scale]. rewrite map_map.
    apply map_ext. intros x. apply IH.
Qed.

Lemma boole_all_spacings (d : nat) : forall (hs : list Qc) (t : tensor d),
  length hs = d ->
  Composite.boole_all d hs t =
  Composite.product hs * Composite.boole_all d (repeat 1 d) t.
Proof.
  induction d as [|d IH]; intros hs t Hlen.
  - destruct hs; [|discriminate Hlen]. cbn. symmetry. apply Qcmult_1_l.
  - destruct hs as [|h hs]; [discriminate Hlen|]. injection Hlen as Hlen.
    cbn [Composite.boole_all hd tl repeat].
    rewrite along_last_spacing, boole_all_scale, IH by exact Hlen.
    rewrite (IH (repeat 1 d)) by apply repeat_length.
    unfold Composite.product. cbn [fold_right].
    assert (H1 : fold_right Qcmult 1 (repeat 1 d) = 1)
      by (clear; induction d as [|d IH]; cbn; [reflexivity|];
          rewrite IH; ring).
    rewrite H1. ring.
Qed.



(** ** Slices and strides commute with maps *)









(** ** Collapsing an axis that is not the last *)

Section OuterAxis.

Variable n d : nat.
Variable hs : list Qc.

Local Notation "'F'" := (Composite.boole_all d hs).
Local Notation "'dense'" := (fun x : tensor d => cube n d x = true).










End OuterAxis.

(** ** C6: the order of the collapse *)







(** * Further properties of the code *)

(** ** Reshaping the function values (line 61 of [boole.py]) *)

Lemma chunks_length {A} (count size : nat) (xs : list A) :
  length (chunks count size xs) = count.
Proof.
  revert xs. induction count as [|c IH]; intros xs; [reflexivity|].
  cbn [chunks length]. now rewrite IH.
Qed.

Lemma chunks_sizes {A} (size : nat) : forall (count : nat) (xs : list A),
  length xs = (count * size)%nat ->
  Forall (fun b => length b = size) (chunks count size xs).
Proof.
  induction count as [|c IH]; intros xs Hlen; [constructor|].
  cbn [chunks]. constructor.
  - rewrite length_firstn. lia.
  - apply IH. rewrite length_skipn. lia.
Qed.

Lemma chunks_concat {A} (size : nat) : forall (count : nat) (xs : list A),
  length xs = (count * size)%nat ->
  concat (chunks count size xs) = xs.
Proof.
  induction count as [|c IH]; intros xs Hlen.
  - destruct xs; [reflexivity | discriminate Hlen].
  - cbn [chunks concat]. rewrite IH by (rewrite length_skipn; lia).
    apply firstn_skipn.
Qed.

Lemma chunks_blocks {A} (size : nat) (blocks : list (list A)) :
  Forall (fun b => length b = size) blocks ->
  chunks (length blocks) size (concat blocks) = blocks.
Proof.
  induction 1 as [|b blocks Hb _ IH]; [reflexivity|].
  cbn [length chunks concat].
  rewrite firstn_app, <- Hb, firstn_all, Nat.sub_diag, firstn_O, app_nil_r.
  rewrite skipn_app, skipn_all, Nat.sub_diag, skipn_O. cbn [app].
  rewrite Hb. now rewrite IH.
Qed.

Lemma sequence_Some {A B} (f : A -> option B) : forall xs ys,
  Torch.sequence (map f xs) = Some ys <-> Forall2 (fun x y => f x = Some y) xs ys.
Proof.
  induction xs as [|x xs IH]; intros ys; cbn [map Torch.sequence].
  - split; [intros [= <-]; constructor | intros H; inversion H; reflexivity].
  - destruct (f x) as [y|] eqn:Hfx.
    + destruct (Torch.sequence (map f xs)) as [ys'|] eqn:Hs.
      * split.
        -- intros [= <-]. constructor; [exact Hfx | now apply IH].
        -- intros H. inversion H as [|? y0 ? ys0 Hy Hrest]; subst.
           apply IH in Hrest. congruence.
      * split; [discriminate|].
        intros H. inversion H as [|? y0 ? ys0 Hy Hrest]; subst.
        apply IH in Hrest. discriminate Hrest.
    + split; [discriminate|].
      intros H. inversion H; subst. congruence.
Qed.

Lemma concat_blocks_length {A} (size : nat) (blocks : list (list A)) :
  Forall (fun b => length b = size) blocks ->
  length (concat blocks) = (length blocks * size)%nat.
Proof.
  induction 1 as [|b blocks Hb _ IH]; [reflexivity|].
  cbn [concat length]. rewrite length_app, IH, Hb. lia.
Qed.

Lemma flatten_length (n d : nat) : forall t : tensor d,
  cube n d t = true -> length (flatten d t) = (n ^ d)%nat.
Proof.
  induction d as [|d IH]; intros t Ht; [reflexivity|].
  apply cube_S in Ht. destruct Ht as [Hlen Hall].
  cbn [flatten Nat.pow].
  rewrite (concat_blocks_length (n ^ d)).
  - rewrite length_map. f_equal. exact Hlen.
  - apply Forall_map. eapply Forall_impl; [|exact Hall].
    intros x Hx. now apply IH.
Qed.

(** [reshape] succeeds exactly on [n ^ d] entries, gives a dense grid, and
    keeps the entries in row-major order. *)
Lemma reshape_Some (n : nat) : forall d (flat : list Qc) (t : tensor d),
  reshape d n flat = Some t -> cube n d t = true /\ flatten d t = flat.
Proof.
  induction d as [|d IH]; intros flat t H.
  - cbn [reshape] in H. destruct flat as [|x [|? ?]]; try discriminate H.
    injection H as <-. split; reflexivity.
  - cbn [reshape] in H.
    destruct (length flat =? n * n ^ d)%nat eqn:Hlen; [|discriminate H].
    apply Nat.eqb_eq in Hlen. apply sequence_Some in H.
    assert (Hch : concat (chunks n (n ^ d) flat) = flat)
      by (apply chunks_concat; exact Hlen).
    assert (Hcount : length (chunks n (n ^ d) flat) = n) by apply chunks_length.
    revert H Hch Hcount. generalize (chunks n (n ^ d) flat) as blocks.
    intros blocks H Hch Hcount. split.
    + apply cube_S. split.
      * rewrite <- (Forall2_length H). exact Hcount.
      * clear Hch Hcount. induction H as [|b x bs xs Hb _ IHF]; constructor.
        -- apply (IH _ _ Hb).
        -- exact IHF.
    + cbn [flatten]. rewrite <- Hch. f_equal. clear Hch Hcount.
      induction H as [|b x bs xs Hb _ IHF]; [reflexivity|].
      cbn [map]. f_equal; [apply (IH _ _ Hb) | exact IHF].
Qed.

Lemma reshape_flatten (n : nat) : forall d (t : tensor d),
  cube n d t = true -> reshape d n (flatten d t) = Some t.
Proof.
  induction d as [|d IH]; intros t Ht; [reflexivity|].
  pose proof (flatten_length n (S d) t Ht) as Hlen.
  apply cube_S in Ht. destruct Ht as [Hn Hall].
  cbn [reshape]. cbn [Nat.pow] in Hlen. rewrite Hlen, Nat.eqb_refl.
  cbn [flatten].
  assert (Hblocks : Forall (fun b => length b = (n ^ d)%nat) (map (flatten d) t)).
  { apply Forall_map. eapply Forall_impl; [|exact Hall].
    intros x Hx. now apply flatten_length. }
  pose proof (chunks_blocks _ _ Hblocks) as Hch.
  replace (length (map (flatten d) t)) with n in Hch
    by (rewrite length_map; symmetry; exact Hn).
  rewrite Hch.
  apply sequence_Some. clear Hch Hblocks Hlen Hn.
  induction Hall as [|x t Hx _ IHt]; cbn [map]; constructor.
  - now apply IH.
  - exact IHt.
Qed.

Lemma reshape_defined (n d : nat) (flat : list Qc) :
  length flat = (n ^ d)%nat -> exists t, reshape d n flat = Some t.
Proof.
  revert flat. induction d as [|d IH]; intros flat Hlen.
  - destruct flat as [|x [|? ?]]; try discriminate Hlen. now exists x.
  - cbn [reshape]. cbn [Nat.pow] in Hlen. rewrite Hlen, Nat.eqb_refl.
    pose proof (chunks_sizes (n ^ d) n flat Hlen) as Hs.
    induction Hs as [|b bs Hb _ IHs].
    + now exists [].
    + destruct (IH b Hb) as [x Hx]. destruct IHs as [xs Hxs].
      exists (x :: xs). cbn [map Torch.sequence]. now rewrite Hx, Hxs.
Qed.

(** ** How [Boole.integrate] ends *)

Lemma collapse_from_short (dim : nat) (hs : list Qc) :
  (length hs < dim)%nat ->
  forall d cur_dim (t : tensor d),
    (cur_dim + d)%nat = dim -> (cur_dim <= length hs)%nat ->
    Boole.collapse_from dim cur_dim hs d t = None.
Proof.
  intros Hshort. induction d as [|d IH]; intros cur_dim t Hsum Hcur; [lia|].
  cbn [Boole.collapse_from].
  destruct (nth_error hs cur_dim) as [h|] eqn:Hnth.
  - rewrite (collapse_step_composite dim cur_dim d hs h t Hnth) by lia.
    apply IH; [lia|].
    assert (cur_dim < length hs)%nat
      by (apply nth_error_Some; congruence).
    lia.
  - unfold Boole.collapse_step. now rewrite Hnth.
Qed.

Lemma collapse_None (dim : nat) (hs : list Qc) (t : tensor dim) :
  Boole.collapse dim hs t = None <-> (length hs < dim)%nat.
Proof.
  unfold Boole.collapse. split.
  - intros H. destruct (Nat.le_gt_cases dim (length hs)) as [Hle|Hlt]; [|exact Hlt].
    rewrite (collapse_from_composite dim hs Hle dim 0 t) in H by lia.
    discriminate H.
  - intros Hlt. apply collapse_from_short; [exact Hlt | lia | lia].
Qed.

(** X1: for an integrand that returns one value per point, once the
    inputs are accepted, the grid is built and its size passes the check
    of line 50, [Boole.integrate] evaluates the integrand exactly once, on
    the grid's points, and ends in one of three ways: a [RuntimeError] of
    [reshape] exactly when the grid does not hold [_N ^ dim] points; an
    [IndexError] of [h[cur_dim]] exactly when it does but has fewer than
    [dim] spacings; a value in every other case.  A grid size below 0 is
    left out: torch reads a negative entry of a shape differently. *)
Theorem boole_integrate_outcomes
    (check_inputs : Z -> Z -> option domain -> option exn)
    (new_grid : Z -> option domain -> result IntegrationGrid)
    (fn : list point -> list Qc) (dim N : Z) (dom : option domain)
    (grid : IntegrationGrid) :
  check_inputs dim N dom = None ->
  new_grid N dom = Ok grid ->
  ((_N grid - 1) mod 4 = 0)%Z ->
  (0 <= _N grid)%Z ->
  length (fn (points grid)) = length (points grid) ->
  let r := BooleIntegrator.integrate check_inputs new_grid fn dim N dom in
  let n := Z.to_nat (_N grid) in
  let d := Z.to_nat dim in
  calls r = [points grid]
  /\ (outcome r = Raise RuntimeError <->
      length (points grid) <> (n ^ d)%nat)
  /\ (outcome r = Raise IndexError <->
      length (points grid) = (n ^ d)%nat /\ (length (h grid) < d)%nat)
  /\ ((exists v, outcome r = Ok v) <->
      length (points grid) = (n ^ d)%nat /\ (d <= length (h grid))%nat).
Proof.
  intros Hchk Hgrid Hmod _ Hfn r n d. subst r. rewrite <- !Hfn.
  unfold BooleIntegrator.integrate. rewrite Hchk, Hgrid.
  assert (Hguard : ((_N grid - 1) mod 4 >? 0)%Z = false)
    by (rewrite Hmod; reflexivity).
  rewrite Hguard. fold n d.
  destruct (reshape d n (fn (points grid))) as [t|] eqn:Hre.
  - pose proof (reshape_Some n d _ t Hre) as [Hcube Hflat].
    assert (Hlen : length (fn (points grid)) = (n ^ d)%nat)
      by (rewrite <- Hflat; now apply flatten_length).
    destruct (Boole.collapse d (h grid) t) as [v|] eqn:Hco; cbn [calls outcome].
    + assert (Hd : (d <= length (h grid))%nat).
      { destruct (Nat.le_gt_cases d (length (h grid))) as [Hle|Hlt]; [exact Hle|].
        apply (collapse_None d (h grid) t) in Hlt. rewrite Hlt in Hco.
        discriminate Hco. }
      split; [reflexivity|]. split; [|split]; split; intros H.
      * discriminate H.
      * contradiction.
      * discriminate H.
      * lia.
      * now split.
      * now exists v.
    + apply collapse_None in Hco.
      split; [reflexivity|]. split; [|split]; split; intros H.
      * discriminate H.
      * contradiction.
      * now split.
      * reflexivity.
      * destruct H as [v Hv]. discriminate Hv.
      * lia.
  - assert (Hlen : length (fn (points grid)) <> (n ^ d)%nat).
    { intros Hlen. destruct (reshape_defined n d _ Hlen) as [t Ht].
      rewrite Ht in Hre. discriminate Hre. }
    cbn [calls outcome].
    split; [reflexivity|]. split; [|split]; split; intros H.
    * exact Hlen.
    * reflexivity.
    * discriminate H.
    * tauto.
    * destruct H as [v Hv]. discriminate Hv.
    * tauto.
Qed.

Lemma boole_integrate_outcomes_witness :
  exists v,
    outcome (BooleIntegrator.integrate RegularGrid.check_inputs RegularGrid.new
               Scenario.square 1 5 (Some [(Boole.lit (-1), Boole.lit 1)]))
    = Ok v.
Proof.
  apply (boole_integrate_outcomes RegularGrid.check_inputs RegularGrid.new
           Scenario.square 1 5 (Some [(Boole.lit (-1), Boole.lit 1)])
           (mkGrid 5
              (cartesian [linspace (Boole.lit (-1)) (Boole.lit 1) 5])
              [(Boole.lit 1 - Boole.lit (-1)) / Boole.lit (5 - 1)])
           eq_refl eq_refl eq_refl).
  - cbn. lia.
  - reflexivity.
  - split; [reflexivity | cbn; lia].
Defined.

(** ** [Boole.integrate] is linear in the integrand *)

Lemma zip_with_app {A B C} (f : A -> B -> C) (a a' : list A) (b b' : list B) :
  length a = length b ->
  Torch.zip_with f (a ++ a') (b ++ b') =
  Torch.zip_with f a b ++ Torch.zip_with f a' b'.
Proof.
  revert b. induction a as [|x a IH]; intros [|y b] Hlen;
    try discriminate Hlen; [reflexivity|].
  cbn [app Torch.zip_with]. f_equal. apply IH. now injection Hlen.
Qed.

Lemma zip_with_concat {A B C} (f : A -> B -> C) (size : nat) :
  forall (X : list (list A)) (Y : list (list B)),
    Forall (fun b => length b = size) X ->
    Forall (fun b => length b = size) Y ->
    Torch.zip_with f (concat X) (concat Y) =
    concat (Torch.zip_with (Torch.zip_with f) X Y).
Proof.
  induction X as [|a X IH]; intros Y HX HY.
  - reflexivity.
  - destruct Y as [|b Y].
    + cbn [concat Torch.zip_with].
      now destruct (a ++ concat X).
    + inversion HX as [|? ? Ha HX']; inversion HY as [|? ? Hb HY']; subst.
      cbn [concat Torch.zip_with]. rewrite zip_with_app by congruence.
      f_equal. now apply IH.
Qed.

Lemma flatten_scale (c : Qc) : forall d (t : tensor d),
  flatten d (Torch.scale d c t) = map (Qcmult c) (flatten d t).
Proof.
  induction d as [|d IH]; intros t; [reflexivity|].
  cbn [flatten Torch.scale]. rewrite map_map, concat_map, map_map.
  f_equal. apply map_ext. exact IH.
Qed.

Lemma flatten_add (n : nat) : forall d (x y : tensor d),
  cube n d x = true -> cube n d y = true ->
  flatten d (Torch.add d x y) =
  Torch.zip_with Qcplus (flatten d x) (flatten d y).
Proof.
  induction d as [|d IH]; intros x y Hx Hy; [reflexivity|].
  apply cube_S in Hx. apply cube_S in Hy.
  destruct Hx as [_ Hx]. destruct Hy as [_ Hy].
  cbn [flatten Torch.add].
  rewrite (map_zip_with (flatten d) (Torch.add d) (Torch.zip_with Qcplus)
             (fun u => cube n d u = true) x y (IH) Hx Hy).
  symmetry. apply (zip_with_concat Qcplus (n ^ d)).
  - apply Forall_map. eapply Forall_impl; [|exact Hx].
    intros u Hu. now apply flatten_length.
  - apply Forall_map. eapply Forall_impl; [|exact Hy].
    intros u Hu. now apply flatten_length.
Qed.

(** What a run of [Boole.integrate] that returns a value went through. *)
Lemma boole_integrate_Ok
    (check_inputs : Z -> Z -> option domain -> option exn)
    (new_grid : Z -> option domain -> result IntegrationGrid)
    (fn : list point -> list Qc) (dim N : Z) (dom : option domain) (v : Qc) :
  outcome (BooleIntegrator.integrate check_inputs new_grid fn dim N dom) = Ok v <->
  exists grid t,
    check_inputs dim N dom = None
    /\ new_grid N dom = Ok grid
    /\ ((_N grid - 1) mod 4 >? 0)%Z = false
    /\ reshape (Z.to_nat dim) (Z.to_nat (_N grid)) (fn (points grid)) = Some t
    /\ Boole.collapse (Z.to_nat dim) (h grid) t = Some v.
Proof.
  unfold BooleIntegrator.integrate. split.
  - destruct (check_inputs dim N dom); [discriminate|].
    destruct (new_grid N dom) as [grid|]; [|discriminate].
    destruct ((_N grid - 1) mod 4 >? 0)%Z eqn:Hguard; [discriminate|].
    destruct (reshape _ _ _) as [t|] eqn:Hre; [|discriminate].
    destruct (Boole.collapse _ _ _) as [w|] eqn:Hco; [|discriminate].
    cbn [outcome]. intros [= <-]. exists grid, t. repeat split; assumption.
  - intros (grid & t & Hchk & Hgrid & Hguard & Hre & Hco).
    now rewrite Hchk, Hgrid, Hguard, Hre, Hco.
Qed.

Lemma collapse_Some (dim : nat) (hs : list Qc) (t : tensor dim) (v : Qc) :
  Boole.collapse dim hs t = Some v ->
  (dim <= length hs)%nat /\ v = Composite.boole_all dim hs t.
Proof.
  intros H.
  assert (Hle : (dim <= length hs)%nat).
  { destruct (Nat.le_gt_cases dim (length hs)) as [Hle|Hlt]; [exact Hle|].
    apply (collapse_None dim hs t) in Hlt. congruence. }
  split; [exact Hle|].
  unfold Boole.collapse in H.
  rewrite (collapse_from_composite dim hs Hle dim 0 t) in H by lia.
  cbn [skipn] in H. congruence.
Qed.

(** X2: [Boole.integrate] is linear in the integrand.  When it returns
    [vf] for [f] and [vg] for [g] on the same arguments, it returns
    [c * vf + vg] for the integrand [c * f + g]. *)
Theorem boole_integrate_linear
    (check_inputs : Z -> Z -> option domain -> option exn)
    (new_grid : Z -> option domain -> result IntegrationGrid)
    (f g : list point -> list Qc) (dim N : Z) (dom : option domain)
    (c vf vg : Qc) :
  outcome (BooleIntegrator.integrate check_inputs new_grid f dim N dom) = Ok vf ->
  outcome (BooleIntegrator.integrate check_inputs new_grid g dim N dom) = Ok vg ->
  outcome (BooleIntegrator.integrate check_inputs new_grid
             (fun pts => Torch.zip_with Qcplus (map (Qcmult c) (f pts)) (g pts))
             dim N dom) = Ok (c * vf + vg).
Proof.
  intros Hf Hg.
  apply boole_integrate_Ok in Hf. apply boole_integrate_Ok in Hg.
  destruct Hf as (grid & tf & Hchk & Hgrid & Hguard & Hre_f & Hco_f).
  destruct Hg as (grid' & tg & _ & Hgrid' & _ & Hre_g & Hco_g).
  assert (grid' = grid) by congruence. subst grid'.
  set (d := Z.to_nat dim) in *. set (n := Z.to_nat (_N grid)) in *.
  destruct (reshape_Some n d _ tf Hre_f) as [Hcube_f Hflat_f].
  destruct (reshape_Some n d _ tg Hre_g) as [Hcube_g Hflat_g].
  destruct (collapse_Some d (h grid) tf vf Hco_f) as [Hle ->].
  destruct (collapse_Some d (h grid) tg vg Hco_g) as [_ ->].
  apply boole_integrate_Ok.
  exists grid, (Torch.add d (Torch.scale d c tf) tg).
  repeat split; try assumption; fold d n.
  - rewrite <- Hflat_f, <- Hflat_g, <- flatten_scale.
    rewrite <- (flatten_add n) by (try apply scale_cube; assumption).
    apply reshape_flatten. apply add_cube; [now apply scale_cube | assumption].
  - unfold Boole.collapse.
    rewrite (collapse_from_composite d (h grid) Hle d 0) by lia.
    cbn [skipn]. f_equal.
    rewrite (boole_all_add n) by (try apply scale_cube; assumption).
    now rewrite boole_all_scale.
Qed.

Lemma boole_integrate_linear_witness :
  outcome (BooleIntegrator.integrate RegularGrid.check_inputs RegularGrid.new
             (fun pts => Torch.zip_with Qcplus
                           (map (Qcmult (Boole.lit 3)) (Scenario.square pts))
                           (Scenario.square pts))
             1 5 (Some [(Boole.lit (-1), Boole.lit 1)]))
  = Ok (Boole.lit 3 * Q2Qc (2 # 3) + Q2Qc (2 # 3)).
Proof.
  apply (boole_integrate_linear RegularGrid.check_inputs RegularGrid.new
           Scenario.square Scenario.square 1 5
           (Some [(Boole.lit (-1), Boole.lit 1)]) (Boole.lit 3)
           (Q2Qc (2 # 3)) (Q2Qc (2 # 3)));
    vm_compute; reflexivity.
Defined.

(** ** The weights of the rule are positive *)

Lemma Qc_nonneg_mult (a b : Qc) : 0 <= a -> 0 <= b -> 0 <= a * b.
Proof.
  intros Ha Hb. rewrite <- (Qcmult_0_l b). now apply Qcmult_le_compat_r.
Qed.

Lemma Qc_nonneg_plus (a b : Qc) : 0 <= a -> 0 <= b -> 0 <= a + b.
Proof.
  intros Ha Hb. rewrite <- (Qcplus_0_l 0). now apply Qcplus_le_compat.
Qed.

Lemma total_nonneg (xs : list Qc) :
  Forall (fun x => 0 <= x) xs -> 0 <= Composite.total xs.
Proof.
  induction 1 as [|x xs Hx _ IH]; [apply Qcle_refl|].
  cbn. now apply Qc_nonneg_plus.
Qed.

Lemma nth_nonneg (f : list Qc) (i : nat) :
  Forall (fun x => 0 <= x) f -> 0 <= nth i f 0.
Proof.
  intros Hf. destruct (Nat.lt_ge_cases i (length f)) as [Hi|Hi].
  - rewrite Forall_forall in Hf. apply Hf. now apply nth_In.
  - rewrite nth_overflow by exact Hi. apply Qcle_refl.
Qed.

Lemma lit_nonneg (z : Z) : (0 <= z)%Z -> 0 <= Boole.lit z.
Proof.
  intros Hz. unfold Boole.lit, Qcle. cbn [this Q2Qc].
  rewrite !Qred_correct. unfold Qle. cbn. lia.
Qed.

Lemma boole_window_nonneg (h : Qc) (f : list Qc) (k : nat) :
  0 <= h -> Forall (fun x => 0 <= x) f -> 0 <= Composite.boole_window h f k.
Proof.
  intros Hh Hf. unfold Composite.boole_window.
  apply Qc_nonneg_mult.
  - unfold Qcdiv. apply Qc_nonneg_mult; [exact Hh|].
    vm_compute. intros H. discriminate H.
  - repeat apply Qc_nonneg_plus;
      (apply Qc_nonneg_mult; [apply lit_nonneg; lia | now apply nth_nonneg]).
Qed.

Lemma boole_sum_nonneg (h : Qc) (f : list Qc) :
  0 <= h -> Forall (fun x => 0 <= x) f -> 0 <= Composite.boole_sum h f.
Proof.
  intros Hh Hf. unfold Composite.boole_sum. apply total_nonneg.
  apply Forall_map, Forall_forall. intros k _. now apply boole_window_nonneg.
Qed.

Lemma along_last_entries (P Q : Qc -> Prop) (g : list Qc -> Qc) :
  (forall row, Forall P row -> Q (g row)) ->
  forall d (t : tensor (S d)),
    all_entries P (S d) t -> all_entries Q d (Composite.along_last d g t).
Proof.
  intros Hg. induction d as [|d IH]; intros t Ht.
  - apply Hg. exact Ht.
  - cbn [Composite.along_last all_entries]. apply Forall_map.
    cbn [all_entries] in Ht. eapply Forall_impl; [|exact Ht].
    intros u Hu. apply IH. exact Hu.
Qed.

Lemma boole_all_nonneg : forall d (hs : list Qc) (t : tensor d),
  Forall (fun x => 0 <= x) hs ->
  all_entries (fun x => 0 <= x) d t ->
  0 <= Composite.boole_all d hs t.
Proof.
  induction d as [|d IH]; intros hs t Hhs Ht; [exact Ht|].
  cbn [Composite.boole_all]. apply IH.
  - destruct Hhs; [constructor | assumption].
  - apply (along_last_entries (fun x => 0 <= x)); [|exact Ht].
    intros row Hrow. apply boole_sum_nonneg; [|exact Hrow].
    destruct Hhs; [apply Qcle_refl | assumption].
Qed.

Lemma all_entries_flatten (P : Qc -> Prop) : forall d (t : tensor d),
  Forall P (flatten d t) -> all_entries P d t.
Proof.
  induction d as [|d IH]; intros t H.
  - now inversion H.
  - cbn [flatten] in H. cbn [all_entries].
    induction t as [|u t IHt]; [constructor|].
    cbn [map concat] in H. apply Forall_app in H. destruct H as [Hu Ht].
    constructor; [now apply IH | now apply IHt].
Qed.

(** X3: the weights of the rule are positive, so a non-negative integrand
    has a non-negative integral.  When the values the integrand returns on
    the grid and the grid's spacings are all at least 0, a value that
    [Boole.integrate] returns is at least 0. *)
Theorem boole_integrate_nonnegative
    (check_inputs : Z -> Z -> option domain -> option exn)
    (new_grid : Z -> option domain -> result IntegrationGrid)
    (fn : list point -> list Qc) (dim N : Z) (dom : option domain)
    (grid : IntegrationGrid) (v : Qc) :
  new_grid N dom = Ok grid ->
  Forall (fun x => 0 <= x) (fn (points grid)) ->
  Forall (fun x => 0 <= x) (h grid) ->
  outcome (BooleIntegrator.integrate check_inputs new_grid fn dim N dom) = Ok v ->
  0 <= v.
Proof.
  intros Hgrid Hfn Hh Hrun.
  apply boole_integrate_Ok in Hrun.
  destruct Hrun as (grid' & t & _ & Hgrid' & _ & Hre & Hco).
  assert (grid' = grid) by congruence. subst grid'.
  destruct (reshape_Some _ _ _ t Hre) as [_ Hflat].
  destruct (collapse_Some _ _ _ _ Hco) as [_ ->].
  apply boole_all_nonneg; [exact Hh|].
  apply all_entries_flatten. now rewrite Hflat.
Qed.

Lemma boole_integrate_nonnegative_witness :
  outcome (BooleIntegrator.integrate RegularGrid.check_inputs RegularGrid.new
             Scenario.square 1 5 (Some [(Boole.lit (-1), Boole.lit 1)]))
  = Ok (Q2Qc (2 # 3))
  /\ 0 <= Q2Qc (2 # 3).
Proof.
  split; [vm_compute; reflexivity|].
  apply (boole_integrate_nonnegative RegularGrid.check_inputs RegularGrid.new
           Scenario.square 1 5 (Some [(Boole.lit (-1), Boole.lit 1)])
           (mkGrid 5
              (cartesian [linspace (Boole.lit (-1)) (Boole.lit 1) 5])
              [(Boole.lit 1 - Boole.lit (-1)) / Boole.lit (5 - 1)])
           (Q2Qc (2 # 3)) eq_refl).
  - repeat constructor; vm_compute; intros H; discriminate H.
  - repeat constructor; vm_compute; intros H; discriminate H.
  - vm_compute. reflexivity.
Defined.

(** ** Constant maps *)

Lemma map_constant {A B} (f : A -> B) (c : B) (xs : list A) :
  Forall (fun x => f x = c) xs -> map f xs = repeat c (length xs).
Proof.
  induction 1 as [|x xs Hx _ IH]; [reflexivity|].
  cbn [map length repeat]. now rewrite Hx, IH.
Qed.

(** ** The spacings enter through their product *)



(** ** The shape of a run of the adaptive loop *)

Section LoopShape.

Import AdaptiveNewtonCotes.

Variable rule : list (option Qc) -> list nat -> Z -> list Qc -> Qc.
Variable fn : list point -> list Qc.
Variable dim N : Z.

Local Notation "'step'" := (evaluate_and_integrate rule fn dim).
Local Notation "'passes_of'" := (run_passes rule fn dim N).

Lemma passes_alternate (k : nat) : forall st,
  snd (passes_of k st) = true ->
  exists new,
    trace (fst (passes_of k st)) = trace st ++ new
    /\ alternating new = true
    /\ length (batches new) = S (refinements new)
    /\ (length (batches new) <= k)%nat.
Proof.
  induction k as [|k IH]; intros st; [discriminate|].
  cbn [run_passes].
  destruct (step_batch rule fn dim st) as (b & Htr & _).
  destruct (hit_maximum_evals N (step st)) eqn:Hhit; cbn [fst snd].
  - intros _. exists [Evaluated b]. repeat split; [exact Htr | cbn; lia].
  - intros Hleft. destruct (IH (refine (step st)) Hleft)
      as (new & Hnew & Halt & Hcount & Hfuel).
    cbn [refine trace] in Hnew.
    exists (Evaluated b :: Refined :: new). repeat split.
    + rewrite Hnew, Htr, <- !app_assoc. reflexivity.
    + exact Halt.
    + unfold refinements in *. cbn [batches flat_map app filter length] in *.
      fold (batches new). lia.
    + cbn [batches flat_map app length]. fold (batches new). lia.
Qed.

Lemma step_count_grows (st : state) :
  (_nr_of_fevals st <= _nr_of_fevals (step st))%nat.
Proof.
  destruct (step_batch rule fn dim st) as (b & _ & Hnr & _). lia.
Qed.

End LoopShape.

(** X6: the loop of lines 70-107 tests the budget after its body.  A run
    that leaves the loop has evaluated the integrand at least once, has
    called [refine] between any two evaluations and nowhere else, and has
    evaluated once more than it has refined. *)
Theorem adaptive_loop_alternates
    (rule : list (option Qc) -> list nat -> Z -> list Qc -> Qc)
    (fn : list point -> list Qc) (dim N : Z)
    (st st' : AdaptiveNewtonCotes.state) (fuel : nat) :
  AdaptiveNewtonCotes.loop rule fn dim N fuel st = Some st' ->
  exists new,
    AdaptiveNewtonCotes.trace st' = AdaptiveNewtonCotes.trace st ++ new
    /\ alternating new = true
    /\ length (AdaptiveNewtonCotes.batches new) = S (refinements new)
    /\ (1 <= length (AdaptiveNewtonCotes.batches new) <= fuel)%nat.
Proof.
  unfold AdaptiveNewtonCotes.loop. intros Hloop.
  pose proof (passes_alternate rule fn dim N fuel st) as H.
  destruct (AdaptiveNewtonCotes.run_passes rule fn dim N fuel st)
    as [s [|]]; [|discriminate Hloop].
  injection Hloop as <-. cbn [fst snd] in H.
  destruct (H eq_refl) as (new & Htr & Halt & Hcount & Hfuel).
  exists new. repeat split; try assumption. lia.
Qed.

Lemma adaptive_loop_alternates_witness :
  let st0 :=
    AdaptiveNewtonCotes.mkState
      (AdaptiveGrid.new 10 [(Boole.lit (-1), Boole.lit 1)] 2 1 false true
         (fun x => 3%Z)) 0 [] in
  let st' :=
    AdaptiveNewtonCotes.after_pass Scenario.riemann_rule Scenario.square 1 1
      st0 in
  exists new,
    AdaptiveNewtonCotes.trace st' = AdaptiveNewtonCotes.trace st0 ++ new
    /\ alternating new = true
    /\ length (AdaptiveNewtonCotes.batches new) = S (refinements new)
    /\ (1 <= length (AdaptiveNewtonCotes.batches new) <= 2)%nat.
Proof.
  intros st0 st'.
  apply (adaptive_loop_alternates Scenario.riemann_rule Scenario.square
           1 10 st0 st' 2).
  vm_compute. reflexivity.
Defined.

(** X7: the evaluation counter is compared with [N] only after the body
    of the loop (line 103).  When the counter is already at least [N] as
    the loop is entered, the body still runs once: the pending points are
    evaluated and the stale subdomains integrated; then the loop is left
    without a call of [refine]. *)
Theorem adaptive_loop_runs_once_on_spent_budget
    (rule : list (option Qc) -> list nat -> Z -> list Qc -> Qc)
    (fn : list point -> list Qc) (dim N : Z)
    (st : AdaptiveNewtonCotes.state) (fuel : nat) :
  (N <= Z.of_nat (AdaptiveNewtonCotes._nr_of_fevals st))%Z ->
  AdaptiveNewtonCotes.loop rule fn dim N (S fuel) st =
  Some (AdaptiveNewtonCotes.evaluate_and_integrate rule fn dim st)
  /\ refinements
       (AdaptiveNewtonCotes.trace
          (AdaptiveNewtonCotes.evaluate_and_integrate rule fn dim st)) =
     refinements (AdaptiveNewtonCotes.trace st).
Proof.
  intros Hspent. split.
  - unfold AdaptiveNewtonCotes.loop. cbn [AdaptiveNewtonCotes.run_passes].
    pose proof (step_count_grows rule fn dim st) as Hgrow.
    unfold AdaptiveNewtonCotes.hit_maximum_evals.
    destruct (Z.leb_spec N
                (Z.of_nat (AdaptiveNewtonCotes._nr_of_fevals
                             (AdaptiveNewtonCotes.evaluate_and_integrate
                                rule fn dim st)))); [reflexivity | lia].
  - destruct (step_batch rule fn dim st) as (b & Htr & _).
    rewrite Htr. unfold refinements. rewrite filter_app, length_app.
    cbn. lia.
Qed.

Lemma adaptive_loop_runs_once_on_spent_budget_witness :
  AdaptiveNewtonCotes.loop Scenario.riemann_rule Scenario.square 1 6 1
    (AdaptiveNewtonCotes.mkState Scenario.small_grid 6 []) =
  Some (AdaptiveNewtonCotes.evaluate_and_integrate Scenario.riemann_rule
          Scenario.square 1
          (AdaptiveNewtonCotes.mkState Scenario.small_grid 6 [])).
Proof.
  apply (adaptive_loop_runs_once_on_spent_budget Scenario.riemann_rule
           Scenario.square 1 6
           (AdaptiveNewtonCotes.mkState Scenario.small_grid 6 []) 0).
  cbn. lia.
Defined.

(** ** What the adaptive driver returns *)

Section ReturnedValue.

Import AdaptiveNewtonCotes.

Variable rule : list (option Qc) -> list nat -> Z -> list Qc -> Qc.
Variable fn : list point -> list Qc.
Variable dim N : Z.

Lemma step_current (st : state) :
  estimates_current rule dim (_grid st) ->
  estimates_current rule dim (_grid (evaluate_and_integrate rule fn dim st)).
Proof.
  unfold estimates_current, evaluate_and_integrate. intros Hcur.
  destruct (AdaptiveGrid.get_next_eval_points (_grid st)) as [pts cs].
  pose proof (scatter_current rule dim (fn pts) cs _ Hcur) as Hsc.
  cbn [_grid AdaptiveGrid.with_subdomains AdaptiveGrid.subdomains
       AdaptiveGrid.set_fvals].
  apply Forall_map. eapply Forall_impl; [|exact Hsc].
  intros s Hs. now apply integrate_keeps_current.
Qed.

Lemma passes_current (k : nat) : forall st,
  estimates_current rule dim (_grid st) ->
  estimates_current rule dim (_grid (fst (run_passes rule fn dim N k st))).
Proof.
  induction k as [|k IH]; intros st Hcur; [exact Hcur|].
  cbn [run_passes].
  destruct (hit_maximum_evals N (evaluate_and_integrate rule fn dim st)).
  - cbn [fst]. now apply step_current.
  - apply IH. now apply (step_all_eq rule fn dim st).
Qed.

End ReturnedValue.

(** X8: the value the adaptive driver returns is the sum, over the
    subdomains the grid holds when the loop is left, of the composite
    rule applied to the values cached for the subdomain, reshaped to
    [[N_per_dim] * dim], with the subdomain's spacings (lines 82-101 and
    109).  The loop may be entered with subdomains that are not stale, as
    long as their stored integral is the rule applied to their cache. *)
Theorem adaptive_result_is_sum_of_rule
    (rule : list (option Qc) -> list nat -> Z -> list Qc -> Qc)
    (fn : list point -> list Qc) (dim N : Z)
    (st st' : AdaptiveNewtonCotes.state) (fuel : nat) :
  estimates_current rule dim (AdaptiveNewtonCotes._grid st) ->
  AdaptiveNewtonCotes.loop rule fn dim N fuel st = Some st' ->
  AdaptiveGrid.get_integral (AdaptiveNewtonCotes._grid st') =
  Ok (Composite.total
        (map (fun s =>
                rule (Subdomain.fval s)
                     (repeat (Subdomain.N_per_dim s) (Z.to_nat dim)) dim
                     (Subdomain.h s))
             (AdaptiveGrid.subdomains (AdaptiveNewtonCotes._grid st')))).
Proof.
  intros Hcur Hloop. unfold AdaptiveNewtonCotes.loop in Hloop.
  pose proof (passes_current rule fn dim N fuel st Hcur) as Hcur'.
  destruct (passes_events rule fn dim N fuel st) as (_ & _ & _ & _ & Hexit).
  destruct (AdaptiveNewtonCotes.run_passes rule fn dim N fuel st)
    as [s [|]]; [|discriminate Hloop].
  injection Hloop as <-. cbn [fst snd] in *.
  destruct (Hexit eq_refl) as (_ & _ & s0 & ->).
  pose proof (step_all_fresh rule fn dim s0) as Hfresh.
  rewrite (fresh_integral _ Hfresh). do 2 f_equal.
  apply map_ext_in. intros x Hx.
  unfold estimates_current in Hcur'. rewrite Forall_forall in Hcur'.
  apply (Hcur' x Hx).
  unfold all_fresh in Hfresh. rewrite forallb_forall in Hfresh.
  specialize (Hfresh x Hx).
  now destruct (Subdomain.requires_integral_value x).
Qed.

Lemma adaptive_result_is_sum_of_rule_witness :
  let st := AdaptiveNewtonCotes.mkState Scenario.small_grid 0 [] in
  let st' := AdaptiveNewtonCotes.after_pass Scenario.riemann_rule
               Scenario.square 1 0 st in
  AdaptiveGrid.get_integral (AdaptiveNewtonCotes._grid st') =
  Ok (Composite.total
        (map (fun s =>
                Scenario.riemann_rule (Subdomain.fval s)
                  (repeat (Subdomain.N_per_dim s) (Z.to_nat 1)) 1
                  (Subdomain.h s))
             (AdaptiveGrid.subdomains (AdaptiveNewtonCotes._grid st')))).
Proof.
  intros st st'.
  apply (adaptive_result_is_sum_of_rule Scenario.riemann_rule Scenario.square
           1 6 st st' 1).
  - repeat constructor; intros Hreq; discriminate Hreq.
  - vm_compute. reflexivity.
Defined.

(** ** One window integrates the powers up to the fifth exactly *)

Lemma lit_1 : Boole.lit 1 = 1.
Proof. apply Qc_is_canon. reflexivity. Qed.
Lemma lit_2 : Boole.lit 2 = two.
Proof. apply Qc_is_canon. reflexivity. Qed.
Lemma lit_3 : Boole.lit 3 = two + 1.
Proof. apply Qc_is_canon. reflexivity. Qed.
Lemma lit_4 : Boole.lit 4 = two * two.
Proof. apply Qc_is_canon. reflexivity. Qed.
Lemma lit_5 : Boole.lit 5 = two * two + 1.
Proof. apply Qc_is_canon. reflexivity. Qed.
Lemma lit_6 : Boole.lit 6 = two * (two + 1).
Proof. apply Qc_is_canon. reflexivity. Qed.
Lemma lit_7 : Boole.lit 7 = two * two * two - 1.
Proof. apply Qc_is_canon. reflexivity. Qed.
Lemma lit_12 : Boole.lit 12 = two * two * (two + 1).
Proof. apply Qc_is_canon. reflexivity. Qed.
Lemma lit_32 : Boole.lit 32 = two * two * two * two * two.
Proof. apply Qc_is_canon. reflexivity. Qed.
Lemma lit_22_5 : Boole.lit_22_5 = (two * two * two + 1) * (two * two + 1) / two.
Proof. apply Qc_is_canon. reflexivity. Qed.

Ltac literals :=
  rewrite ?lit_22_5, ?lit_1, ?lit_2, ?lit_3, ?lit_4, ?lit_5, ?lit_6, ?lit_7,
    ?lit_12, ?lit_32; unfold two.

Lemma boole_window_exact (e : nat) (x ha : Qc) :
  (e <= 5)%nat ->
  ha * (1 / Boole.lit_22_5 *
        (Boole.lit 7 * x ^ e + Boole.lit 32 * (x + Boole.lit 1 * ha) ^ e
         + Boole.lit 12 * (x + Boole.lit 2 * ha) ^ e
         + Boole.lit 32 * (x + Boole.lit 3 * ha) ^ e
         + Boole.lit 7 * (x + Boole.lit 4 * ha) ^ e)) =
  ((x + Boole.lit 4 * ha) ^ S e - x ^ S e) / Boole.lit (Z.of_nat (S e)).
Proof.
  intros He.
  do 6 (destruct e as [|e]; [cbn [Z.of_nat Pos.of_succ_nat Pos.succ Qcpower]; literals; field; repeat split; intro H; discriminate H|]).
  lia.
Qed.

Lemma lit_plus (a b : Z) : Boole.lit (a + b) = Boole.lit a + Boole.lit b.
Proof.
  unfold Boole.lit. apply Qc_is_canon. unfold Qcplus. cbn [this Q2Qc].
  rewrite !Qred_correct, inject_Z_plus. reflexivity.
Qed.

Lemma lit_0 : Boole.lit 0 = 0.
Proof. apply Qc_is_canon. reflexivity. Qed.

Lemma lit_nonzero (z : Z) : z <> 0%Z -> Boole.lit z <> 0.
Proof.
  intros Hz H. unfold Boole.lit in H.
  apply Q2Qc_eq_iff in H. apply Hz.
  apply (inject_Z_injective z 0). exact H.
Qed.

Lemma total_telescope (g : nat -> Qc) (m : nat) :
  Composite.total (map (fun k => g (S k) - g k) (seq 0 m)) = g m - g 0%nat.
Proof.
  induction m as [|m IH]; [cbn; ring|].
  rewrite seq_S, map_app. cbn [map Nat.add].
  unfold Composite.total in *. rewrite fold_right_app. cbn [fold_right].
  assert (Hshift : forall (xs : list Qc) (c : Qc),
             fold_right Qcplus c xs = fold_right Qcplus 0 xs + c)
    by (induction xs as [|x xs IHx]; intros c; cbn;
        [ring | rewrite IHx; ring]).
  rewrite Hshift, IH. ring.
Qed.

Lemma linspace_nth (lo hi : Qc) (n i : nat) (f : Qc -> Qc) :
  (i < n)%nat ->
  nth i (map f (linspace lo hi n)) 0 =
  f (lo + Boole.lit (Z.of_nat i) * ((hi - lo) / Boole.lit (Z.of_nat n - 1))).
Proof.
  intros Hi. unfold linspace. rewrite map_map.
  set (g := fun j : nat =>
              f (lo + Boole.lit (Z.of_nat j)
                      * ((hi - lo) / Boole.lit (Z.of_nat n - 1)))).
  rewrite (nth_indep _ 0 (g 0%nat))
    by (rewrite length_map, length_seq; exact Hi).
  rewrite (map_nth g (seq 0 n) 0%nat i), seq_nth by exact Hi. reflexivity.
Qed.

Lemma linspace_length (lo hi : Qc) (n : nat) : length (linspace lo hi n) = n.
Proof. unfold linspace. now rewrite length_map, length_seq. Qed.

Lemma boole_sum_monomial_exact (e m : nat) (lo hi : Qc) :
  (e <= 5)%nat -> (1 <= m)%nat ->
  (hi - lo) / Boole.lit (Z.of_nat (4 * m + 1) - 1)
  * Composite.boole_sum 1 (map (fun x => x ^ e) (linspace lo hi (4 * m + 1))) =
  (hi ^ S e - lo ^ S e) / Boole.lit (Z.of_nat (S e)).
Proof.
  intros He Hm. set (n := (4 * m + 1)%nat).
  set (ha := (hi - lo) / Boole.lit (Z.of_nat n - 1)).
  set (c := Boole.lit (Z.of_nat (S e))).
  set (X := fun k : nat => lo + Boole.lit (Z.of_nat (4 * k)) * ha).
  unfold Composite.boole_sum.
  rewrite length_map, linspace_length.
  replace (Composite.windows n) with m by (unfold Composite.windows, n; lia).
  rewrite <- total_times.
  rewrite (map_ext_in _ (fun k => X (S k) ^ S e / c - X k ^ S e / c)).
  - rewrite (total_telescope (fun k => X k ^ S e / c)).
    assert (HX0 : X 0%nat = lo)
      by (unfold X; change (Z.of_nat (4 * 0)) with 0%Z; rewrite lit_0; ring).
    assert (HXm : X m = hi).
    { unfold X, ha. replace (Z.of_nat n - 1)%Z with (Z.of_nat (4 * m))
        by (unfold n; lia).
      field. apply lit_nonzero. lia. }
    rewrite HX0, HXm. unfold Qcdiv. ring.
  - intros k Hk. apply in_seq in Hk. unfold Composite.boole_window.
    rewrite !linspace_nth by (unfold n; lia). fold ha.
    replace (lo + Boole.lit (Z.of_nat (4 * k)) * ha) with (X k) by reflexivity.
    replace (lo + Boole.lit (Z.of_nat (4 * k + 1)) * ha)
      with (X k + Boole.lit 1 * ha)
      by (unfold X; rewrite Nat2Z.inj_add, lit_plus; cbn [Z.of_nat Pos.of_succ_nat]; ring).
    replace (lo + Boole.lit (Z.of_nat (4 * k + 2)) * ha)
      with (X k + Boole.lit 2 * ha)
      by (unfold X; rewrite Nat2Z.inj_add, lit_plus; cbn [Z.of_nat Pos.of_succ_nat Pos.succ]; ring).
    replace (lo + Boole.lit (Z.of_nat (4 * k + 3)) * ha)
      with (X k + Boole.lit 3 * ha)
      by (unfold X; rewrite Nat2Z.inj_add, lit_plus; cbn [Z.of_nat Pos.of_succ_nat Pos.succ]; ring).
    replace (lo + Boole.lit (Z.of_nat (4 * k + 4)) * ha)
      with (X k + Boole.lit 4 * ha)
      by (unfold X; rewrite Nat2Z.inj_add, lit_plus; cbn [Z.of_nat Pos.of_succ_nat Pos.succ]; ring).
    replace (X (S k)) with (X k + Boole.lit 4 * ha)
      by (unfold X; replace (4 * S k)%nat with (4 * k + 4)%nat by lia;
          rewrite Nat2Z.inj_add, lit_plus; cbn [Z.of_nat Pos.of_succ_nat Pos.succ]; ring).
    cbv beta. pose proof (boole_window_exact e (X k) ha He) as Hw.
    fold c in Hw. unfold Qcdiv in *.
    transitivity (((X k + Boole.lit 4 * ha) ^ S e - X k ^ S e) * / c);
      [exact Hw | ring].
Qed.

(** ** The values of a function on a product grid, reshaped *)

Lemma cartesian_length {A} (n : nat) (axes : list (list A)) :
  Forall (fun a => length a = n) axes ->
  length (cartesian axes) = (n ^ length axes)%nat.
Proof.
  induction 1 as [|a axes Ha _ IH]; [reflexivity|].
  cbn [cartesian length Nat.pow]. rewrite <- IH, <- Ha.
  generalize (cartesian axes) as c. clear. intros c.
  induction a as [|x a IHa]; [reflexivity|].
  cbn [flat_map length]. rewrite length_app, length_map, IHa. lia.
Qed.

Lemma reshape_tabulate (n : nat) : forall d (axes : list (list Qc)) (f : point -> Qc),
  length axes = d -> Forall (fun a => length a = n) axes ->
  reshape d n (map f (cartesian axes)) = Some (tabulate d axes f).
Proof.
  induction d as [|d IH]; intros axes f Hlen Haxes.
  - destruct axes; [reflexivity | discriminate Hlen].
  - destruct axes as [|a rest]; [discriminate Hlen|]. injection Hlen as Hlen.
    inversion Haxes as [|? ? Ha Hrest]; subst.
    set (blocks := map (fun x => map (fun r => f (x :: r)) (cartesian rest)) a).
    assert (Hflat : map f (cartesian (a :: rest)) = concat blocks).
    { cbn [cartesian]. rewrite flat_map_concat_map, concat_map, map_map.
      unfold blocks. f_equal. apply map_ext. intros x. now rewrite map_map. }
    assert (Hblocks : Forall (fun b => length b = (length a ^ length rest)%nat) blocks).
    { unfold blocks. apply Forall_map, Forall_forall. intros x _.
      rewrite length_map. now apply cartesian_length. }
    cbn [reshape]. rewrite Hflat.
    assert (Hlenflat : length (concat blocks) = (length a * length a ^ length rest)%nat).
    { rewrite <- Hflat, length_map.
      apply (cartesian_length (length a) (a :: rest)). exact Haxes. }
    rewrite Hlenflat, Nat.eqb_refl.
    pose proof (chunks_blocks _ _ Hblocks) as Hch.
    replace (length blocks) with (length a) in Hch
      by (unfold blocks; symmetry; apply length_map).
    rewrite Hch.
    unfold blocks. rewrite map_map.
    rewrite (map_ext _ (fun x => Some (tabulate (length rest) rest (fun r => f (x :: r)))))
      by (intros x; apply IH; [reflexivity | exact Hrest]).
    rewrite sequence_map_Some. reflexivity.
Qed.

(** ** The rule on tabulated functions *)

Lemma tabulate_ext : forall d (axes : list (list Qc)) (f g : point -> Qc),
  (forall x, f x = g x) -> tabulate d axes f = tabulate d axes g.
Proof.
  induction d as [|d IH]; intros axes f g Hfg; [apply Hfg|].
  cbn [tabulate]. apply map_ext. intros x. apply IH.
  intros r. apply Hfg.
Qed.

Lemma tabulate_cube (n : nat) : forall d (axes : list (list Qc)) (f : point -> Qc),
  length axes = d -> Forall (fun a => length a = n) axes ->
  cube n d (tabulate d axes f) = true.
Proof.
  induction d as [|d IH]; intros axes f Hlen Haxes; [reflexivity|].
  destruct axes as [|a rest]; [discriminate Hlen|]. injection Hlen as Hlen.
  inversion Haxes as [|? ? Ha Hrest]; subst.
  apply cube_S. cbn [tabulate hd tl]. split.
  - apply length_map.
  - apply Forall_map, Forall_forall. intros x _. now apply IH.
Qed.

Lemma tabulate_add : forall d (axes : list (list Qc)) (f g : point -> Qc),
  tabulate d axes (fun x => f x + g x) =
  Torch.add d (tabulate d axes f) (tabulate d axes g).
Proof.
  induction d as [|d IH]; intros axes f g; [reflexivity|].
  cbn [tabulate Torch.add]. rewrite zip_with_map.
  apply map_ext. intros x. apply IH.
Qed.

Lemma tabulate_scale (c : Qc) : forall d (axes : list (list Qc)) (f : point -> Qc),
  tabulate d axes (fun x => c * f x) = Torch.scale d c (tabulate d axes f).
Proof.
  induction d as [|d IH]; intros axes f; [reflexivity|].
  cbn [tabulate Torch.scale]. rewrite map_map.
  apply map_ext. intros x. apply IH.
Qed.

Lemma tabulate_zero (n : nat) : forall d (axes : list (list Qc)),
  length axes = d -> Forall (fun a => length a = n) axes ->
  tabulate d axes (fun _ => 0) = AnyAxis.zeros n d.
Proof.
  induction d as [|d IH]; intros axes Hlen Haxes; [reflexivity|].
  destruct axes as [|a rest]; [discriminate Hlen|]. injection Hlen as Hlen.
  inversion Haxes as [|? ? Ha Hrest]; subst.
  cbn [tabulate hd tl AnyAxis.zeros].
  rewrite (map_constant _ (AnyAxis.zeros (length a) (length rest)));
    [reflexivity|].
  apply Forall_forall. intros x _. now apply IH.
Qed.

Lemma total_cons (x : Qc) (xs : list Qc) :
  Composite.total (x :: xs) = x + Composite.total xs.
Proof. reflexivity. Qed.

Section Tabulated.

Variable n d : nat.
Variable axes : list (list Qc).
Hypothesis axes_count : length axes = d.
Hypothesis axes_sizes : Forall (fun a => length a = n) axes.

(** The rule with spacings [hs] on the values of [f]. *)
Local Notation "'rule_of'" :=
  (fun hs f => Composite.boole_all d hs (tabulate d axes f)).

Lemma rule_of_plus (hs : list Qc) (f g : point -> Qc) :
  rule_of hs (fun x => f x + g x) = rule_of hs f + rule_of hs g.
Proof.
  cbv beta. rewrite tabulate_add.
  apply (boole_all_add n); now apply tabulate_cube.
Qed.

Lemma rule_of_times (hs : list Qc) (c : Qc) (f : point -> Qc) :
  rule_of hs (fun x => c * f x) = c * rule_of hs f.
Proof. cbv beta. rewrite tabulate_scale. apply boole_all_scale. Qed.

Lemma rule_of_zero (hs : list Qc) : rule_of hs (fun _ => 0) = 0.
Proof.
  cbv beta. rewrite (tabulate_zero n) by assumption. apply boole_all_zeros.
Qed.

Lemma rule_of_polynomial (hs : list Qc) (p : Poly.t) :
  rule_of hs (Poly.eval p) =
  Composite.total
    (map (fun ce => fst ce * rule_of hs (Poly.monomial (snd ce))) p).
Proof.
  induction p as [|ce p IH].
  - apply rule_of_zero.
  - cbn [map]. rewrite total_cons, <- IH.
    rewrite (tabulate_ext d axes (Poly.eval (ce :: p))
               (fun x => fst ce * Poly.monomial (snd ce) x + Poly.eval p x))
      by (intros x; reflexivity).
    rewrite (rule_of_plus hs (fun x => fst ce * Poly.monomial (snd ce) x)
               (Poly.eval p)).
    now rewrite (rule_of_times hs (fst ce) (Poly.monomial (snd ce))).
Qed.

End Tabulated.

Lemma repeat_snoc {A} (x : A) (k : nat) : repeat x (S k) = repeat x k ++ [x].
Proof.
  induction k as [|k IH]; [reflexivity|].
  cbn [repeat app] in *. now rewrite <- IH.
Qed.

(** With unit spacings the rule factors over the variables of a monomial. *)
Lemma unit_rule_monomial : forall d (axes : list (list Qc)) (es : list nat),
  length axes = d -> length es = d ->
  Composite.boole_all d (repeat 1 d) (tabulate d axes (Poly.monomial es)) =
  unit_sums es axes.
Proof.
  induction d as [|d IH]; intros axes es Haxes Hes.
  - destruct axes; [|discriminate Haxes]. destruct es; [|discriminate Hes].
    reflexivity.
  - destruct axes as [|a rest]; [discriminate Haxes|].
    destruct es as [|e es']; [discriminate Hes|].
    injection Haxes as Haxes. injection Hes as Hes.
    rewrite repeat_snoc, boole_all_outer by apply repeat_length.
    cbn [tabulate hd tl unit_sums]. rewrite map_map.
    rewrite (map_ext _ (fun x => unit_sums es' rest * x ^ e)).
    + rewrite <- (map_map (fun x => x ^ e) (Qcmult (unit_sums es' rest))).
      rewrite boole_sum_scaled. apply Qcmult_comm.
    + intros x.
      rewrite (tabulate_ext d rest _ (fun r => x ^ e * Poly.monomial es' r))
        by (intros r; reflexivity).
      rewrite tabulate_scale, boole_all_scale, (IH rest es' Haxes Hes).
      apply Qcmult_comm.
Qed.

(** The spacings [(hi - lo) / (n - 1)] times the unit sums are the exact
    integral of the monomial over the box. *)
Lemma spacings_times_unit_sums (m : nat) : forall (box : domain) (es : list nat),
  (1 <= m)%nat ->
  length es = length box ->
  Forall (fun e => (e <= 5)%nat) es ->
  Composite.product
    (map (fun b => (snd b - fst b) / Boole.lit (Z.of_nat (4 * m + 1) - 1)) box)
  * unit_sums es (map (fun b => linspace (fst b) (snd b) (4 * m + 1)) box) =
  Poly.integral_monomial es box.
Proof.
  intros box es Hm. revert es.
  induction box as [|b box IH]; intros es Hlen Hes.
  - destruct es; [|discriminate Hlen]. cbn. apply Qcmult_1_l.
  - destruct es as [|e es']; [discriminate Hlen|]. injection Hlen as Hlen.
    inversion Hes as [|? ? He Hes']; subst.
    cbn [map Composite.product fold_right unit_sums Poly.integral_monomial].
    fold (Composite.product
            (map (fun b => (snd b - fst b) / Boole.lit (Z.of_nat (4 * m + 1) - 1))
                 box)).
    rewrite <- (IH es' Hlen Hes').
    rewrite <- (boole_sum_monomial_exact e m (fst b) (snd b) He Hm).
    ring.
Qed.

(** X9: Boole's rule is exact on polynomials of degree at most
    [_convergence_order = 5] in each variable.  For a grid of
    [N_per_dim = 4 m + 1] equally spaced points per dimension with
    [m >= 1], both ends of every interval included, points in row-major
    order and spacings [(hi - lo) / (N_per_dim - 1)], [Boole.integrate]
    returns, in exact arithmetic, the integral of the polynomial over the
    box, in every dimension. *)
Theorem boole_integrate_exact_on_polynomials
    (check_inputs : Z -> Z -> option domain -> option exn)
    (new_grid : Z -> option domain -> result IntegrationGrid)
    (p : Poly.t) (N : Z) (dom : option domain) (box : domain)
    (grid : IntegrationGrid) (m : nat) :
  check_inputs (Z.of_nat (length box)) N dom = None ->
  new_grid N dom = Ok grid ->
  _N grid = Z.of_nat (4 * m + 1) ->
  points grid =
    cartesian (map (fun b => linspace (fst b) (snd b) (4 * m + 1)) box) ->
  h grid =
    map (fun b => (snd b - fst b) / Boole.lit (Z.of_nat (4 * m + 1) - 1)) box ->
  (1 <= m)%nat ->
  Poly.arity (length box) p = true ->
  exponents_le _convergence_order p = true ->
  BooleIntegrator.integrate check_inputs new_grid (Poly.fn p)
    (Z.of_nat (length box)) N dom =
  mkRun [points grid] (Ok (Poly.integral p box)).
Proof.
  intros Hchk Hgrid HN Hpts Hh Hm Harity Hexp.
  set (d := length box) in *. set (n := (4 * m + 1)%nat) in *.
  set (axes := map (fun b => linspace (fst b) (snd b) n) box) in *.
  assert (Haxes : length axes = d) by apply length_map.
  assert (Hsizes : Forall (fun a => length a = n) axes).
  { apply Forall_map, Forall_forall. intros b _. apply linspace_length. }
  unfold BooleIntegrator.integrate. rewrite Hchk, Hgrid, HN.
  replace ((Z.of_nat n - 1) mod 4)%Z with 0%Z by (unfold n; lia).
  change (0 >? 0)%Z with false. cbv iota.
  rewrite !Nat2Z.id. unfold Poly.fn. rewrite Hpts.
  rewrite (reshape_tabulate n d axes (Poly.eval p) Haxes Hsizes).
  unfold Boole.collapse.
  rewrite (collapse_from_composite d (h grid)) with (cur_dim := 0%nat)
    by (rewrite ?Hh, ?length_map; fold d; lia).
  cbn [skipn]. do 2 f_equal.
  rewrite (rule_of_polynomial n d axes Haxes Hsizes).
  unfold Poly.integral. f_equal. apply map_ext_in. intros [c es] Hin.
  cbn [fst snd]. f_equal.
  unfold Poly.arity in Harity. rewrite forallb_forall in Harity.
  specialize (Harity _ Hin). cbn [snd] in Harity. apply Nat.eqb_eq in Harity.
  unfold exponents_le, _convergence_order in Hexp.
  rewrite forallb_forall in Hexp.
  specialize (Hexp _ Hin). cbn [snd] in Hexp.
  rewrite boole_all_spacings by (rewrite Hh; apply length_map).
  rewrite (unit_rule_monomial d axes es Haxes Harity), Hh.
  apply spacings_times_unit_sums; [exact Hm | exact Harity |].
  apply Forall_forall. intros e He. rewrite forallb_forall in Hexp.
  now apply Nat.leb_le, Hexp.
Qed.

Lemma boole_integrate_exact_on_polynomials_witness :
  let box := [(Boole.lit (-1), Boole.lit 1); (Boole.lit 0, Boole.lit 3)] in
  let p : Poly.t := [(Boole.lit 2, [2; 1]%nat); (Boole.lit 1, [0; 0]%nat)] in
  outcome (BooleIntegrator.integrate RegularGrid.check_inputs RegularGrid.new
             (Poly.fn p) 2 25 (Some box))
  = Ok (Poly.integral p box).
Proof.
  intros box p.
  exact (f_equal outcome
           (boole_integrate_exact_on_polynomials RegularGrid.check_inputs
              RegularGrid.new p 25 (Some box) box
              (mkGrid 5
                 (cartesian (map (fun b => linspace (fst b) (snd b) 5) box))
                 (map (fun b => (snd b - fst b) / Boole.lit (5 - 1)) box))
              1 eq_refl eq_refl eq_refl eq_refl eq_refl (le_n 1)
              eq_refl eq_refl)).
Defined.

(** ** A grid that supplies no more points *)

Lemma stalled_passes
    (rule : list (option Qc) -> list nat -> Z -> list Qc -> Qc)
    (fn : list point -> list Qc) (dim N : Z) (k : nat) :
  forall st,
    stalled (AdaptiveNewtonCotes._grid st) = true ->
    (Z.of_nat (AdaptiveNewtonCotes._nr_of_fevals st) < N)%Z ->
    AdaptiveNewtonCotes._nr_of_fevals
      (fst (AdaptiveNewtonCotes.run_passes rule fn dim N k st)) =
    AdaptiveNewtonCotes._nr_of_fevals st.
Proof.
  induction k as [|k IH]; intros st Hst Hlt; [reflexivity|].
  cbn [AdaptiveNewtonCotes.run_passes].
  destruct (stalled_pass rule fn dim st Hst) as [Hst' Hnr'].
  cbn [AdaptiveNewtonCotes.refine AdaptiveNewtonCotes._nr_of_fevals] in Hnr'.
  destruct (AdaptiveNewtonCotes.hit_maximum_evals N
              (AdaptiveNewtonCotes.evaluate_and_integrate rule fn dim st))
    eqn:Hhit.
  - exact Hnr'.
  - rewrite IH; [exact Hnr' | exact Hst' |].
    cbn [AdaptiveNewtonCotes.refine AdaptiveNewtonCotes._nr_of_fevals]. lia.
Qed.

(** X10: the loop of lines 71-107 is left by the budget test alone.  With
    the grid of the specification, once every subdomain has its values
    and has reached [max_refinement_level] while the counter is below
    [N], a pass evaluates no point and refines nothing: the counter stays
    where it is and the loop is never left. *)
Theorem adaptive_loop_never_left_when_stalled
    (rule : list (option Qc) -> list nat -> Z -> list Qc -> Qc)
    (fn : list point -> list Qc) (dim N : Z)
    (st : AdaptiveNewtonCotes.state) :
  stalled (AdaptiveNewtonCotes._grid st) = true ->
  (Z.of_nat (AdaptiveNewtonCotes._nr_of_fevals st) < N)%Z ->
  forall fuel,
    AdaptiveNewtonCotes.loop rule fn dim N fuel st = None
    /\ AdaptiveNewtonCotes._nr_of_fevals
         (fst (AdaptiveNewtonCotes.run_passes rule fn dim N fuel st)) =
       AdaptiveNewtonCotes._nr_of_fevals st.
Proof.
  intros Hst Hlt fuel. split.
  - unfold AdaptiveNewtonCotes.loop.
    pose proof (stalled_never_exits rule fn dim N fuel st Hst Hlt) as Hnever.
    destruct (AdaptiveNewtonCotes.run_passes rule fn dim N fuel st)
      as [s [|]]; [discriminate Hnever | reflexivity].
  - now apply stalled_passes.
Qed.

Lemma adaptive_loop_never_left_when_stalled_witness :
  let st :=
    fst (AdaptiveNewtonCotes.run_passes Scenario.riemann_rule Scenario.square
           1 Scenario.N 3
           (AdaptiveNewtonCotes.mkState Scenario.grid_with_full_budget 0 [])) in
  AdaptiveNewtonCotes._nr_of_fevals st = 800%nat
  /\ AdaptiveNewtonCotes.loop Scenario.riemann_rule Scenario.square 1
       Scenario.N 7 st = None.
Proof.
  intros st. split; [vm_compute; reflexivity|].
  apply (adaptive_loop_never_left_when_stalled Scenario.riemann_rule
           Scenario.square 1 Scenario.N st).
  - vm_compute. reflexivity.
  - vm_compute. reflexivity.
Defined.

(** ** Bounds on the result *)

Lemma monomial_zero : forall (d : nat) (x : point),
  Poly.monomial (repeat 0%nat d) x = 1.
Proof.
  induction d as [|d IH]; intros x; [reflexivity|].
  destruct x as [|xi x]; [reflexivity|].
  cbn [repeat Poly.monomial Qcpower]. rewrite IH. apply Qcmult_1_l.
Qed.

Lemma integral_monomial_zero (box : domain) :
  Poly.integral_monomial (repeat 0%nat (length box)) box = volume box.
Proof.
  unfold volume. induction box as [|b box IH]; [reflexivity|].
  cbn [length repeat Poly.integral_monomial map Composite.product fold_right].
  fold (Composite.product (map (fun b => snd b - fst b) box)).
  rewrite IH. cbn [Z.of_nat Pos.of_succ_nat Qcpower]. rewrite lit_1.
  unfold Qcdiv. field. intros H. discriminate H.
Qed.

Lemma rule_of_one (m : nat) (box : domain) :
  (1 <= m)%nat ->
  Composite.boole_all (length box)
    (map (fun b => (snd b - fst b) / Boole.lit (Z.of_nat (4 * m + 1) - 1)) box)
    (tabulate (length box)
       (map (fun b => linspace (fst b) (snd b) (4 * m + 1)) box)
       (fun _ => 1)) =
  volume box.
Proof.
  intros Hm.
  rewrite (tabulate_ext _ _ (fun _ => 1)
             (Poly.monomial (repeat 0%nat (length box))))
    by (intros x; symmetry; apply monomial_zero).
  rewrite boole_all_spacings by apply length_map.
  rewrite unit_rule_monomial by (rewrite ?length_map, ?repeat_length; reflexivity).
  rewrite spacings_times_unit_sums.
  - apply integral_monomial_zero.
  - exact Hm.
  - apply repeat_length.
  - apply Forall_forall. intros e He. apply repeat_spec in He. lia.
Qed.

Lemma tabulate_entries (P : Qc -> Prop) :
  forall d (axes : list (list Qc)) (f : point -> Qc),
    (forall x, P (f x)) -> all_entries P d (tabulate d axes f).
Proof.
  induction d as [|d IH]; intros axes f Hf; [apply Hf|].
  cbn [tabulate all_entries]. apply Forall_map, Forall_forall.
  intros x _. apply IH. intros r. apply Hf.
Qed.

Lemma zip_with_entries {A B C} (P : A -> Prop) (Q : B -> Prop) (R : C -> Prop)
    (f : A -> B -> C) :
  (forall x y, P x -> Q y -> R (f x y)) ->
  forall xs ys, Forall P xs -> Forall Q ys -> Forall R (Torch.zip_with f xs ys).
Proof.
  intros Hf xs ys Hxs. revert ys.
  induction Hxs as [|x xs Hx _ IH]; intros ys Hys; [constructor|].
  destruct Hys as [|y ys Hy Hys]; [constructor|].
  cbn [Torch.zip_with]. constructor; [now apply Hf | now apply IH].
Qed.

Lemma add_entries (P Q R : Qc -> Prop) :
  (forall x y, P x -> Q y -> R (x + y)) ->
  forall d (x y : tensor d),
    all_entries P d x -> all_entries Q d y ->
    all_entries R d (Torch.add d x y).
Proof.
  intros HR. induction d as [|d IH]; intros x y Hx Hy; [now apply HR|].
  cbn [Torch.add all_entries] in *.
  apply (zip_with_entries (all_entries P d) (all_entries Q d)); assumption.
Qed.

Lemma scale_entries (P Q : Qc -> Prop) (c : Qc) :
  (forall x, P x -> Q (c * x)) ->
  forall d (t : tensor d), all_entries P d t -> all_entries Q d (Torch.scale d c t).
Proof.
  intros HQ. induction d as [|d IH]; intros t Ht; [now apply HQ|].
  cbn [Torch.scale all_entries] in *. apply Forall_map.
  eapply Forall_impl; [|exact Ht]. exact (IH).
Qed.

Lemma Qc_nonneg_inv (x : Qc) : 0 <= x -> 0 <= / x.
Proof.
  intros Hx. unfold Qcle in *. cbn [this Qcinv Q2Qc].
  setoid_replace (Qred (/ x)) with (/ x)%Q by apply Qred_correct.
  apply Qinv_le_0_compat. exact Hx.
Qed.

(** The rule on a dense grid lies between the bounds of the entries times
    the rule on the constant 1. *)
Lemma boole_all_between (n d : nat) (hs : list Qc) (t ones : tensor d)
    (a b : Qc) :
  cube n d t = true -> cube n d ones = true ->
  Forall (fun x => 0 <= x) hs ->
  all_entries (fun y => a <= y /\ y <= b) d t ->
  all_entries (fun y => y = 1) d ones ->
  a * Composite.boole_all d hs ones <= Composite.boole_all d hs t
  /\ Composite.boole_all d hs t <= b * Composite.boole_all d hs ones.
Proof.
  intros Ht Hones Hhs Hbounds Hone. split; apply Qcle_minus_iff.
  - replace (Composite.boole_all d hs t + - (a * Composite.boole_all d hs ones))
      with (Composite.boole_all d hs
              (Torch.add d t (Torch.scale d (- a) ones))).
    + apply boole_all_nonneg; [exact Hhs|].
      apply (add_entries (fun y => a <= y /\ y <= b) (fun y => y = - a));
        [| exact Hbounds |].
      * intros x y [Hx _] ->. now apply Qcle_minus_iff in Hx.
      * apply (scale_entries (fun y => y = 1)); [|exact Hone].
        intros x ->. ring.
    + rewrite (boole_all_add n), boole_all_scale;
        [ring | exact Ht | now apply scale_cube].
  - replace (b * Composite.boole_all d hs ones + - Composite.boole_all d hs t)
      with (Composite.boole_all d hs
              (Torch.add d (Torch.scale d b ones) (Torch.scale d (- (1)) t))).
    + apply boole_all_nonneg; [exact Hhs|].
      apply (add_entries (fun y => y = b) (fun y => 0 <= b + y)).
      * intros x y -> Hy. exact Hy.
      * apply (scale_entries (fun y => y = 1)); [|exact Hone].
        intros x ->. ring.
      * apply (scale_entries (fun y => a <= y /\ y <= b)); [|exact Hbounds].
        intros x [_ Hx]. apply Qcle_minus_iff in Hx.
        replace (b + - (1) * x) with (b + - x) by ring. exact Hx.
    + rewrite (boole_all_add n), !boole_all_scale;
        [ring | now apply scale_cube | now apply scale_cube].
Qed.

Lemma spacings_nonneg (k : Z) (box : domain) :
  (0 <= k)%Z ->
  Forall (fun b => fst b <= snd b) box ->
  Forall (fun x => 0 <= x)
         (map (fun b => (snd b - fst b) / Boole.lit k) box).
Proof.
  intros Hk Hbox. apply Forall_map. eapply Forall_impl; [|exact Hbox].
  intros b Hb. cbv beta. unfold Qcdiv. apply Qc_nonneg_mult.
  - unfold Qcminus. now apply Qcle_minus_iff in Hb.
  - apply Qc_nonneg_inv. now apply lit_nonneg.
Qed.

(** X11: on a grid of [N_per_dim = 4 m + 1] points per dimension with
    [m >= 1] and spacings [(hi - lo) / (N_per_dim - 1)] over a box with
    [lo <= hi], a value [Boole.integrate] returns lies between the
    smallest and the largest value of the integrand on the grid, each
    times the volume of the box. *)
Theorem boole_integrate_bounds
    (check_inputs : Z -> Z -> option domain -> option exn)
    (new_grid : Z -> option domain -> result IntegrationGrid)
    (fn : list point -> list Qc) (N : Z) (dom : option domain) (box : domain)
    (grid : IntegrationGrid) (m : nat) (a b v : Qc) :
  new_grid N dom = Ok grid ->
  _N grid = Z.of_nat (4 * m + 1) ->
  h grid =
    map (fun bd => (snd bd - fst bd) / Boole.lit (Z.of_nat (4 * m + 1) - 1))
        box ->
  (1 <= m)%nat ->
  Forall (fun bd => fst bd <= snd bd) box ->
  Forall (fun y => a <= y /\ y <= b) (fn (points grid)) ->
  outcome (BooleIntegrator.integrate check_inputs new_grid fn
             (Z.of_nat (length box)) N dom) = Ok v ->
  a * volume box <= v /\ v <= b * volume box.
Proof.
  intros Hgrid HN Hh Hm Hbox Hvals Hrun.
  apply boole_integrate_Ok in Hrun.
  destruct Hrun as (grid' & t & _ & Hgrid' & _ & Hre & Hco).
  assert (grid' = grid) by congruence. subst grid'.
  revert t Hre Hco. rewrite HN, !Nat2Z.id. intros t Hre Hco.
  destruct (reshape_Some _ _ _ t Hre) as [Hcube Hflat].
  destruct (collapse_Some _ _ _ _ Hco) as [_ ->].
  rewrite Hh. rewrite <- (rule_of_one m box Hm).
  apply (boole_all_between (4 * m + 1)).
  - exact Hcube.
  - apply tabulate_cube; [apply length_map|].
    apply Forall_map, Forall_forall. intros bd _. apply linspace_length.
  - apply spacings_nonneg; [lia | exact Hbox].
  - apply all_entries_flatten. now rewrite Hflat.
  - apply tabulate_entries. reflexivity.
Qed.

Lemma boole_integrate_bounds_witness :
  let box := [(Boole.lit (-1), Boole.lit 1)] in
  outcome (BooleIntegrator.integrate RegularGrid.check_inputs RegularGrid.new
             Scenario.square 1 5 (Some box)) = Ok (Q2Qc (2 # 3))
  /\ Boole.lit 0 * volume box <= Q2Qc (2 # 3)
  /\ Q2Qc (2 # 3) <= Boole.lit 1 * volume box.
Proof.
  intros box. split; [vm_compute; reflexivity|].
  apply (boole_integrate_bounds RegularGrid.check_inputs RegularGrid.new
           Scenario.square 5 (Some box) box
           (mkGrid 5
              (cartesian (map (fun b => linspace (fst b) (snd b) 5) box))
              (map (fun b => (snd b - fst b) / Boole.lit (5 - 1)) box))
           1 (Boole.lit 0) (Boole.lit 1) (Q2Qc (2 # 3))
           eq_refl eq_refl eq_refl (le_n 1)).
  - repeat constructor. vm_compute. intros H. discriminate H.
  - repeat constructor; vm_compute; intros H; discriminate H.
  - vm_compute. reflexivity.
Defined.

(** ** C4: polynomials below the order of the rule *)




